(** * copy_files_to_agave: recursive copy of a local directory to Agave

    A shallow embedding of [copy_files_to_agave.py].  The script talks to two
    outside parties: the local operating system ([os.listdir],
    [os.path.isdir], [os.path.isfile], [open]) and the agavepy client
    ([files.manage], [files.importData]).  Both are kept as oracles of a
    [World]; every interaction is appended to a trace, so that the
    observable behaviour of a run is the list of events it leaves behind. *)

From stdpp Require Import base option list gmap strings.
From Stdlib Require Import String Ascii Lia.

Local Open Scope string_scope.
Local Open Scope list_scope.

(** ** POSIX path functions of the Python standard library *)

Module posixpath.

Definition sep : ascii := "/"%char.

(** [s.startswith('/')] *)
Definition startswith_sep (s : string) : bool :=
  match s with
  | String c _ => bool_decide (c = sep)
  | EmptyString => false
  end.

(** [s.endswith('/')] *)
Fixpoint endswith_sep (s : string) : bool :=
  match s with
  | EmptyString => false
  | String c EmptyString => bool_decide (c = sep)
  | String _ s' => endswith_sep s'
  end.

Definition is_empty (s : string) : bool :=
  match s with EmptyString => true | _ => false end.

(** [os.path.join(a, b)]: an absolute [b] discards [a]; otherwise [b] is
    appended, with a separator unless [a] is empty or already ends in
    one. *)
Definition join (a b : string) : string :=
  if startswith_sep b then b
  else if is_empty a || endswith_sep a then a +:+ b
  else a +:+ "/" +:+ b.

(** [s.split('/')] *)
Fixpoint split (s : string) : list string :=
  match s with
  | EmptyString => [EmptyString]
  | String c s' =>
      if bool_decide (c = sep) then EmptyString :: split s'
      else match split s' with
           | h :: t => String c h :: t
           | [] => [String c EmptyString]
           end
  end.

(** ['/'.join(comps)] *)
Fixpoint sep_join (comps : list string) : string :=
  match comps with
  | [] => ""
  | [c] => c
  | c :: cs => c +:+ "/" +:+ sep_join cs
  end.

(** [os.path.basename(p)]: what follows the last separator. *)
Definition basename (p : string) : string := List.last (split p) "".

Definition is_nil {A} (l : list A) : bool :=
  match l with [] => true | _ => false end.

(** The loop of [os.path.normpath] over the components; [new_comps] is
    kept reversed (its head is Python's [new_comps[-1]]). *)
Fixpoint normpath_comps (initial_slashes : nat) (comps new_comps : list string)
  : list string :=
  match comps with
  | [] => List.rev new_comps
  | comp :: comps' =>
      if bool_decide (comp = "") || bool_decide (comp = ".")
      then normpath_comps initial_slashes comps' new_comps
      else if negb (bool_decide (comp = ".."))
              || (bool_decide (initial_slashes = 0) && is_nil new_comps)
              || (match new_comps with
                  | top :: _ => bool_decide (top = "..")
                  | [] => false
                  end)
      then normpath_comps initial_slashes comps' (comp :: new_comps)
      else normpath_comps initial_slashes comps' (List.tl new_comps)
  end.

(** [os.path.normpath(path)] *)
Definition normpath (path : string) : string :=
  if is_empty path then "."
  else
    let initial_slashes :=
      match path with
      | String "/" (String "/" (String "/" _)) => 1
      | String "/" (String "/" _) => 2
      | String "/" _ => 1
      | _ => 0
      end in
    let comps := normpath_comps initial_slashes (split path) [] in
    let path' := sep_join comps in
    let path' :=
      match initial_slashes with
      | 0 => path'
      | 1 => "/" +:+ path'
      | _ => "//" +:+ path'
      end in
    if is_empty path' then "." else path'.

End posixpath.

(** ** Exceptions, events and the outside world *)

(** The exceptions the script can meet.  None is ever caught. *)
Inductive exn :=
| KeyError (key : string)           (* a missing dictionary / environment key *)
| OSError (what : string) (filename : string)  (* raised by a filesystem access *)
| AgaveError (what : string)        (* raised by the agavepy client *)
| AttributeError (what : string)    (* the receiver is not an adapter *)
| EOFError.                         (* the input ends at the password prompt *)

(** A file object returned by [open(name, mode)]. *)
Record file_obj := { f_name : string; f_mode : string }.

#[global] Instance file_obj_eq_dec : EqDecision file_obj.
Proof. solve_decision. Defined.

(** The session handle built by [Agave(...)], kept as the keyword arguments
    it was created from. *)
Record Agave := {
  api_server : string; username : string; password : string;
  client_name : string; api_key : string; api_secret : string }.

#[global] Instance Agave_eq_dec : EqDecision Agave.
Proof. solve_decision. Defined.

(** One interaction of the process with the outside. *)
Inductive event :=
| Listdir (path : string)                    (* os.listdir(path) *)
| Isdir (path : string)                      (* os.path.isdir(path) *)
| Isfile (path : string)                     (* os.path.isfile(path) *)
| Open (f : file_obj)                        (* open(name, mode) succeeded *)
| Close (f : file_obj)                       (* the file object is closed *)
| Getpass                                    (* getpass.getpass() prompt *)
| Connect (session : Agave)                  (* Agave(...): session set-up *)
| Manage (systemId filePath action path : string)
    (* files.manage(body={'action': action, 'path': path}, systemId, filePath) *)
| ImportData (systemId filePath : string) (fileToUpload : file_obj)
             (fileName : string).
    (* files.importData(systemId, filePath, fileToUpload, fileName) *)

#[global] Instance event_eq_dec : EqDecision event.
Proof. solve_decision. Defined.

(** The events that reach the remote service. *)
Definition is_remote (e : event) : bool :=
  match e with
  | Connect _ | Manage _ _ _ _ | ImportData _ _ _ _ => true
  | _ => false
  end.

(** The create-directory calls, and the upload calls. *)
Definition is_mkdir (e : event) : bool :=
  match e with
  | Manage _ _ action _ => bool_decide (action = "mkdir")
  | _ => false
  end.

Definition is_upload (e : event) : bool :=
  match e with ImportData _ _ _ _ => true | _ => false end.

(** What the process cannot decide by itself: the local file system as the
    [os] module reports it, the process environment, the operator at the
    terminal, and whether the remote service accepts a call (given all that
    happened before it). *)
Record World := {
  w_listdir : string -> exn + list string;
  w_isdir : string -> bool;
  w_isfile : string -> bool;
  w_open : string -> option exn;          (* [None]: the file opens *)
  w_environ : gmap string string;         (* os.environ *)
  w_user : exn + string;
    (* getpass.getuser(): the login name, or the error when none is found *)
  w_password : exn + string;
    (* what is typed at the prompt, or the error when nothing can be read *)
  w_fault : list event -> event -> option exn }.

(** ** The adapter object and the state of a run *)

Record AgaveWrapper := {
  _rootpath : string;
  _system_id : string;
  _agave : Agave }.

(** Python passes the adapter by reference: objects live in a heap and a
    reference is an index into it. *)
Definition ref := nat.

Record State := {
  trace : list event;           (* everything done so far, oldest first *)
  open_files : list file_obj;   (* file objects not yet closed *)
  heap : list AgaveWrapper }.

Definition initial_state : State :=
  {| trace := []; open_files := []; heap := [] |}.

Definition log (e : event) (st : State) : State :=
  {| trace := trace st ++ [e]; open_files := open_files st; heap := heap st |}.

(** ** A state and exception monad *)

Inductive outcome (A : Type) :=
| Returned (a : A)
| Raised (e : exn)
| OutOfFuel.
Arguments Returned {A} a.
Arguments Raised {A} e.
Arguments OutOfFuel {A}.

Definition M (A : Type) : Type := State -> outcome A * State.

Definition ret {A} (a : A) : M A := fun st => (Returned a, st).

Definition bind {A B} (m : M A) (k : A -> M B) : M B :=
  fun st =>
    match m st with
    | (Returned a, st') => k a st'
    | (Raised e, st') => (Raised e, st')
    | (OutOfFuel, st') => (OutOfFuel, st')
    end.

Definition raise {A} (e : exn) : M A := fun st => (Raised e, st).

Definition out_of_fuel {A} : M A := fun st => (OutOfFuel, st).

Declare Scope py_scope.
Delimit Scope py_scope with py.
Notation "x <- m ;; k" := (bind m (fun x => k))
  (at level 100, m at next level, right associativity) : py_scope.
Notation "m ;; k" := (bind m (fun _ => k))
  (at level 100, right associativity) : py_scope.
Local Open Scope py_scope.

(** [try: body finally: cleanup] *)
Definition try_finally {A} (body : M A) (cleanup : M unit) : M A :=
  fun st =>
    match body st with
    | (r, st') =>
        match cleanup st' with
        | (Returned _, st'') => (r, st'')
        | (Raised e, st'') => (Raised e, st'')
        | (OutOfFuel, st'') => (OutOfFuel, st'')
        end
    end.

(** [for x in l: body(x)] *)
Fixpoint for_each {A} (l : list A) (body : A -> M unit) : M unit :=
  match l with
  | [] => ret tt
  | x :: l' => body x ;; for_each l' body
  end.

(** [d[key]] on a dictionary *)
Definition getitem (d : gmap string string) (key : string) : M string :=
  match d !! key with
  | Some v => ret v
  | None => raise (KeyError key)
  end.

Definition emit (e : event) : M unit := fun st => (Returned tt, log e st).

Section Program.

Context (W : World).

(** *** Calls into the operating system *)

Definition os_listdir (path : string) : M (list string) :=
  emit (Listdir path) ;;
  match w_listdir W path with
  | inr names => ret names
  | inl e => raise e
  end.

Definition os_path_isdir (path : string) : M bool :=
  emit (Isdir path) ;; ret (w_isdir W path).

Definition os_path_isfile (path : string) : M bool :=
  emit (Isfile path) ;; ret (w_isfile W path).

Definition os_environ_getitem (key : string) : M string :=
  getitem (w_environ W) key.

(** [getpass.getuser()]: raises when no login name is found. *)
Definition getpass_getuser : M string :=
  match w_user W with
  | inr user => ret user
  | inl e => raise e
  end.

(** [getpass.getpass()]: prompts, then raises when nothing can be read. *)
Definition getpass_getpass : M string :=
  emit Getpass ;;
  match w_password W with
  | inr pass => ret pass
  | inl e => raise e
  end.

(** [open(name, mode)]: on success the file object joins the open files. *)
Definition open (name mode : string) : M file_obj :=
  let f := {| f_name := name; f_mode := mode |} in
  match w_open W name with
  | Some e => raise e
  | None =>
      fun st => (Returned f,
                 {| trace := trace st ++ [Open f];
                    open_files := f :: open_files st;
                    heap := heap st |})
  end.

(** Forget one occurrence of [f], the most recently opened. *)
Fixpoint remove_file (f : file_obj) (l : list file_obj) : list file_obj :=
  match l with
  | [] => []
  | g :: l' => if decide (f = g) then l' else g :: remove_file f l'
  end.

(** [file.close()] *)
Definition close (f : file_obj) : M unit :=
  fun st => (Returned tt,
             {| trace := trace st ++ [Close f];
                open_files := remove_file f (open_files st);
                heap := heap st |}).

(** [with open(name, mode) as file: body(file)] *)
Definition with_open {A} (name mode : string) (body : file_obj -> M A) : M A :=
  file <- open name mode ;;
  try_finally (body file) (close file).

(** *** Calls into the agavepy client *)

(** A call that reaches the remote service: it is recorded, and raises
    when the service refuses it. *)
Definition remote_call (e : event) : M unit :=
  fun st =>
    match w_fault W (trace st) e with
    | Some x => (Raised x, log e st)
    | None => (Returned tt, log e st)
    end.

Definition Agave_new (session : Agave) : M Agave :=
  remote_call (Connect session) ;; ret session.

(** *** class AgaveWrapper *)

Definition deref (self : ref) : M AgaveWrapper :=
  fun st =>
    match heap st !! self with
    | Some this => (Returned this, st)
    | None => (Raised (AttributeError "AgaveWrapper"), st)
    end.

Definition alloc (this : AgaveWrapper) : M ref :=
  fun st => (Returned (List.length (heap st)),
             {| trace := trace st; open_files := open_files st;
                heap := heap st ++ [this] |}).

(** [AgaveWrapper.__init__]: [params] is the dictionary of keyword arguments. *)
Definition AgaveWrapper_init (params : gmap string string) : M ref :=
  rootpath <- getitem params "rootpath" ;;
  system_id <- getitem params "system_id" ;;
  server <- os_environ_getitem "AGAVE_SERVER" ;;
  user <- getitem params "username" ;;
  pass <- getitem params "password" ;;
  client <- os_environ_getitem "AGAVE_CLIENT" ;;
  key <- os_environ_getitem "AGAVE_API_KEY" ;;
  secret <- os_environ_getitem "AGAVE_API_SECRET" ;;
  agave <- Agave_new {| api_server := "https://" +:+ server;
                        username := user; password := pass;
                        client_name := client; api_key := key;
                        api_secret := secret |} ;;
  alloc {| _rootpath := rootpath; _system_id := system_id; _agave := agave |}.

Definition make_directory (self : ref) (path : string) : M unit :=
  this <- deref self ;;
  remote_call (Manage (_system_id this) (_rootpath this) "mkdir" path).

Definition upload_fileobj (self : ref) (file_obj : file_obj)
    (dest_path filename : string) : M unit :=
  this <- deref self ;;
  let qualified_path := posixpath.join (_rootpath this) dest_path in
  remote_call (ImportData (_system_id this) qualified_path file_obj filename).

Definition upload_file (self : ref) (file_path dest_path filename : string)
  : M unit :=
  with_open file_path "rb" (fun file =>
    upload_fileobj self file dest_path filename).

(** *** copy_from *)

(** The recursion of the source is on the file system, which need not be
    well founded; [fuel] bounds the depth of the recursion. *)
Fixpoint copy_from (fuel : nat) (local_path : string) (agave : ref)
    (remote_path : string) : M unit :=
  match fuel with
  | O => out_of_fuel
  | S fuel' =>
      make_directory agave remote_path ;;
      files <- os_listdir local_path ;;
      for_each files (fun file =>
        let local_file_path := posixpath.join local_path file in
        let remote_file_path := posixpath.join remote_path file in
        is_dir <- os_path_isdir local_file_path ;;
        if is_dir then
          copy_from fuel' local_file_path agave remote_file_path
        else
          is_file <- os_path_isfile local_file_path ;;
          if is_file then
            upload_file agave local_file_path remote_path file
          else ret tt)
  end.

(** *** main *)

(** [directory] is the positional command-line argument. *)
Definition main (fuel : nat) (directory : string) : M unit :=
  let local_path := posixpath.normpath directory in
  let remote_path := posixpath.basename local_path in
  user <- getpass_getuser ;;
  pass <- getpass_getpass ;;
  agave <- AgaveWrapper_init
             (<["rootpath" := "/sample/biofab"]>
              (<["system_id" := "data-sd2e-community"]>
               (<["username" := user]>
                (<["password" := pass]> ∅)))) ;;
  copy_from fuel local_path agave remote_path.

End Program.

(** ** Local directory trees *)

#[local] Set Warnings "-register-all".

(** What a path can name.  A symbolic link is kept with the node its target
    resolves to ([None] when it dangles); being an inductive value, a tree
    is finite and has no cycle. *)
Inductive node :=
| RegularFile
| Directory (entries : list (string * node))
| Symlink (target : option node)
| Special.                       (* FIFO, socket, device *)

(** [os.stat]: symbolic links are followed. *)
Fixpoint stat (n : node) : option node :=
  match n with
  | Symlink (Some t) => stat t
  | Symlink None => None
  | _ => Some n
  end.

(** How [copy_from] tells entries apart: [os.path.isdir], then
    [os.path.isfile], both of which go through [os.stat]. *)
Inductive kind := KDir | KFile | KOther.

#[global] Instance kind_eq_dec : EqDecision kind.
Proof. solve_decision. Defined.

Definition classify (n : node) : kind :=
  match stat n with
  | Some (Directory _) => KDir
  | Some RegularFile => KFile
  | _ => KOther
  end.

(** The type of the entry itself ([os.lstat]: links are not followed). *)
Inductive ftype := TRegular | TDirectory | TSymlink | TSpecial.

#[global] Instance ftype_eq_dec : EqDecision ftype.
Proof. solve_decision. Defined.

Definition lstat_type (n : node) : ftype :=
  match n with
  | RegularFile => TRegular
  | Directory _ => TDirectory
  | Symlink _ => TSymlink
  | Special => TSpecial
  end.


(** The depth of what is reached from [n] when symbolic links are
    followed: a link to a directory counts as that directory. *)
Fixpoint followed_depth (n : node) : nat :=
  match n with
  | Directory es => S (foldr (fun e d => Nat.max (followed_depth e.2) d) 0 es)
  | Symlink (Some t) => followed_depth t
  | _ => 0
  end.

(** *** A file system serving a tree *)

Fixpoint lookup_entry (name : string) (es : list (string * node)) : option node :=
  match es with
  | [] => None
  | (n, c) :: es' => if decide (n = name) then Some c else lookup_entry name es'
  end.

(** Path resolution from the directory [n], following links on the way. *)
Fixpoint resolve (comps : list string) (n : node) : option node :=
  match comps with
  | [] => stat n
  | c :: cs =>
      match stat n with
      | Some (Directory es) =>
          match lookup_entry c es with
          | Some child => resolve cs child
          | None => None
          end
      | _ => None
      end
  end.

Definition path_components (path : string) : list string :=
  List.filter (fun c => negb (bool_decide (c = "") || bool_decide (c = ".")))
              (posixpath.split path).

(** Relative paths are resolved from the working directory [cwd]; nothing
    is reachable through an absolute or empty path. *)
Definition fs_stat (cwd : node) (path : string) : option node :=
  if posixpath.is_empty path || posixpath.startswith_sep path then None
  else resolve (path_components path) cwd.

Definition fs_world (cwd : node) (environ : gmap string string) : World := {|
  w_listdir path :=
    match fs_stat cwd path with
    | Some (Directory es) => inr (List.map fst es)
    | Some _ => inl (OSError "NotADirectoryError" path)
    | None => inl (OSError "FileNotFoundError" path)
    end;
  w_isdir path :=
    match fs_stat cwd path with Some (Directory _) => true | _ => false end;
  w_isfile path :=
    match fs_stat cwd path with Some RegularFile => true | _ => false end;
  w_open path :=
    match fs_stat cwd path with
    | Some RegularFile => None
    | Some (Directory _) => Some (OSError "IsADirectoryError" path)
    | Some _ => Some (OSError "PermissionError" path)
    | None => Some (OSError "FileNotFoundError" path)
    end;
  w_environ := environ;
  w_user := inr "operator";
  w_password := inr "secret";
  w_fault _ _ := None |}.

(** *** What the operating system reports about a tree *)

(** [observes W p n]: through [W], the path [p] and everything below it
    look like the node [n]. *)
Fixpoint observes (W : World) (p : string) (n : node) : Prop :=
  match n with
  | RegularFile =>
      w_isdir W p = false ∧ w_isfile W p = true ∧ w_open W p = None
  | Directory es =>
      w_isdir W p = true ∧ w_listdir W p = inr (List.map fst es) ∧
      (fix all (es : list (string * node)) : Prop :=
         match es with
         | [] => True
         | (name, c) :: es' => observes W (posixpath.join p name) c ∧ all es'
         end) es
  | Symlink (Some t) => observes W p t
  | Symlink None | Special => w_isdir W p = false ∧ w_isfile W p = false
  end.

(** The remote service accepts every call. *)
Definition reliable (W : World) : Prop := ∀ t e, w_fault W t e = None.

(** *** The entries of a tree, in the order of the traversal *)

Record entry := {
  e_local : string;     (* local path of the entry *)
  e_parent : string;    (* remote path of the directory that lists it *)
  e_name : string;      (* base name *)
  e_kind : kind;        (* as [copy_from] classifies it *)
  e_type : ftype }.     (* what the entry itself is *)

#[global] Instance entry_eq_dec : EqDecision entry.
Proof. solve_decision. Defined.

Definition e_remote (e : entry) : string := posixpath.join (e_parent e) (e_name e).

(** The entries of the tree [n] itself, where [n] sits at [local] and is
    copied to [remote]; parents come before their children.  A symbolic
    link is an entry of the tree, and the tree has nothing below it. *)
Fixpoint tree_entries (local remote : string) (n : node) : list entry :=
  match n with
  | Directory es =>
      List.flat_map (fun e =>
        {| e_local := posixpath.join local e.1; e_parent := remote;
           e_name := e.1; e_kind := classify e.2; e_type := lstat_type e.2 |}
        :: tree_entries (posixpath.join local e.1) (posixpath.join remote e.1) e.2)
        es
  | _ => []
  end.

(** Everything reached strictly below [n] when symbolic links are
    followed, as [os.path.isdir] and [os.listdir] do: what is below the
    target of a link to a directory is found again below the link. *)
Fixpoint walk (local remote : string) (n : node) : list entry :=
  match n with
  | Directory es =>
      List.flat_map (fun e =>
        {| e_local := posixpath.join local e.1; e_parent := remote;
           e_name := e.1; e_kind := classify e.2; e_type := lstat_type e.2 |}
        :: walk (posixpath.join local e.1) (posixpath.join remote e.1) e.2) es
  | Symlink (Some t) => walk local remote t
  | _ => []
  end.

Section Expected.

Context (this : AgaveWrapper).

Definition mkdir_call (remote : string) : event :=
  Manage (_system_id this) (_rootpath this) "mkdir" remote.

Definition upload_call (local dest name : string) : event :=
  ImportData (_system_id this) (posixpath.join (_rootpath this) dest)
             {| f_name := local; f_mode := "rb" |} name.

(** The remote call [copy_from] owes to one entry. *)
Definition call_of (e : entry) : list event :=
  match e_kind e with
  | KDir => [mkdir_call (e_remote e)]
  | KFile => [upload_call (e_local e) (e_parent e) (e_name e)]
  | KOther => []
  end.

(** Every event of a run of [copy_from] on the directory [n]. *)
Fixpoint events_of (local remote : string) (n : node) : list event :=
  match n with
  | Directory es =>
      mkdir_call remote :: Listdir local ::
      List.flat_map (fun e =>
        let local_file_path := posixpath.join local e.1 in
        Isdir local_file_path ::
        match classify e.2 with
        | KDir => events_of local_file_path (posixpath.join remote e.1) e.2
        | KFile =>
            let f := {| f_name := local_file_path; f_mode := "rb" |} in
            [Isfile local_file_path; Open f;
             upload_call local_file_path remote e.1; Close f]
        | KOther => [Isfile local_file_path]
        end) es
  | Symlink (Some t) => events_of local remote t
  | _ => []
  end.

End Expected.


(** * Vocabulary of the properties *)

(** ** States *)

(** The state after some more events. *)
Definition extend (st : State) (evs : list event) : State :=
  {| trace := trace st ++ evs; open_files := open_files st; heap := heap st |}.

(** The state after [open] returned [f], and after [f] was closed. *)
Definition opened (f : file_obj) (st : State) : State :=
  {| trace := trace st ++ [Open f]; open_files := f :: open_files st;
     heap := heap st |}.

Definition closed (f : file_obj) (st : State) : State :=
  {| trace := trace st ++ [Close f];
     open_files := remove_file f (open_files st); heap := heap st |}.

(** ** The loop of [copy_from] *)

(** One iteration of the loop of [copy_from]. *)
Definition iteration (W : World) (agave : ref) (fuel : nat)
    (local_path remote_path file : string) : M unit :=
  (let local_file_path := posixpath.join local_path file in
   let remote_file_path := posixpath.join remote_path file in
   is_dir <- os_path_isdir W local_file_path ;;
   if is_dir then copy_from W fuel local_file_path agave remote_file_path
   else
     is_file <- os_path_isfile W local_file_path ;;
     if is_file then upload_file W agave local_file_path remote_path file
     else ret tt)%py.

(** ** Names and paths *)

Fixpoint has_sep (s : string) : bool :=
  match s with
  | EmptyString => false
  | String c s' => bool_decide (c = posixpath.sep) || has_sep s'
  end.

(** A name as [os.listdir] returns it: not empty, and without separator. *)
Definition valid_name (s : string) : bool :=
  negb (posixpath.is_empty s) && negb (has_sep s).

(** [a] with the separator that [os.path.join] puts after it. *)
Definition with_sep (a : string) : string :=
  if posixpath.is_empty a || posixpath.endswith_sep a then a else a +:+ "/".

(** A remainder of a path after a component: nothing, or a separator and
    more. *)
Definition slashed (r : string) : Prop :=
  r = "" ∨ posixpath.startswith_sep r = true.

(** A path that is not empty and does not end with a separator. *)
Definition proper (b : string) : Prop :=
  posixpath.is_empty b = false ∧ posixpath.endswith_sep b = false.

(** A tree whose directories list names as [os.listdir] returns them:
    valid, and different from each other. *)
Fixpoint well_formed (n : node) : Prop :=
  match n with
  | Directory es =>
      NoDup (List.map fst es) ∧
      (fix all (es : list (string * node)) : Prop :=
         match es with
         | [] => True
         | (name, c) :: es' => valid_name name = true ∧ well_formed c ∧ all es'
         end) es
  | Symlink (Some t) => well_formed t
  | _ => True
  end.

(** No entry of the tree is named [.]. *)
Fixpoint dotless (n : node) : Prop :=
  match n with
  | Directory es =>
      (fix all (es : list (string * node)) : Prop :=
         match es with
         | [] => True
         | (name, c) :: es' => name ≠ "." ∧ dotless c ∧ all es'
         end) es
  | Symlink (Some t) => dotless t
  | _ => True
  end.

(** The paths below [base], in the order of the traversal. *)
Fixpoint paths (base : string) (n : node) : list string :=
  match n with
  | Directory es =>
      List.flat_map (fun e =>
        posixpath.join base e.1 :: paths (posixpath.join base e.1) e.2) es
  | Symlink (Some t) => paths base t
  | _ => []
  end.

(** ** Directories and files of a tree *)

Definition is_kind (k : kind) (e : entry) : bool := bool_decide (e_kind e = k).

Definition is_type (t : ftype) (e : entry) : bool := bool_decide (e_type e = t).

(** The remote paths of the directories of a tree, the root first: the
    entries of the tree that are directories. *)
Definition directories (local remote : string) (n : node) : list string :=
  remote :: List.map e_remote
              (List.filter (is_type TDirectory) (tree_entries local remote n)).

(** The regular files of a tree: the entries of the tree that are regular
    files. *)
Definition regular_files (local remote : string) (n : node) : list entry :=
  List.filter (is_type TRegular) (tree_entries local remote n).

(** With symbolic links followed: the remote paths of the root and of
    everything that [os.path.isdir] accepts, which are the directories,
    the links to directories, and the same below such links. *)
Definition followed_directories (local remote : string) (n : node)
  : list string :=
  remote :: List.map e_remote (List.filter (is_kind KDir) (walk local remote n)).

(** With symbolic links followed: everything that [os.path.isfile]
    accepts, which are the regular files, the links to regular files, and
    the same below links to directories. *)
Definition followed_files (local remote : string) (n : node) : list entry :=
  List.filter (is_kind KFile) (walk local remote n).

(** The listings of directories. *)
Definition is_listdir (e : event) : bool :=
  match e with Listdir _ => true | _ => false end.


(** An entry gets no call: no directory is created for it, and it is not
    uploaded anywhere under any name. *)
Definition skipped (this : AgaveWrapper) (e : entry) (evs : list event) : Prop :=
  (mkdir_call this (e_remote e) ∉ evs) ∧
  (∀ dest name, upload_call this (e_local e) dest name ∉ evs).

(** ** Refused calls *)

(** The same world with a service that accepts every call. *)
Definition without_faults (W : World) : World := {|
  w_listdir := w_listdir W; w_isdir := w_isdir W; w_isfile := w_isfile W;
  w_open := w_open W; w_environ := w_environ W; w_user := w_user W;
  w_password := w_password W; w_fault _ _ := None |}.

(** The same world with a service that refuses one call, and accepts the
    others. *)
Definition refusing (bad : event) (W : World) : World := {|
  w_listdir := w_listdir W; w_isdir := w_isdir W; w_isfile := w_isfile W;
  w_open := w_open W; w_environ := w_environ W; w_user := w_user W;
  w_password := w_password W;
  w_fault _ ev := if decide (ev = bad) then Some (AgaveError "refused") else None |}.

(** A computation stops at a refused call: it only adds events, and when
    the service refuses one of the added calls, no remote call follows it
    and the exception of the service is the outcome. *)
Definition fail_fast (W : World) {A} (m : M A) : Prop :=
  ∀ st out st', m st = (out, st') →
    ∃ new, trace st' = trace st ++ new ∧
      ∀ t c rest e, new = t ++ c :: rest → is_remote c = true →
        w_fault W (trace st ++ t) c = Some e →
        List.filter is_remote rest = [] ∧ out = Raised e.

(** A run was cut short with respect to another: they agree, or the first
    raised at an earlier point of the second. *)
Definition cut_short {A} (r r0 : outcome A * State) : Prop :=
  r = r0 ∨ ∃ e, r.1 = Raised e ∧ trace r.2 `prefix_of` trace r0.2.


(** ** Calls of the adapter *)

(** The operations of the adapter. *)
Inductive adapter_call :=
| Call_make_directory (path : string)
| Call_upload_file (file_path dest_path filename : string)
| Call_upload_fileobj (file_obj : file_obj) (dest_path filename : string).

Definition perform (W : World) (self : ref) (c : adapter_call) : M unit :=
  match c with
  | Call_make_directory path => make_directory W self path
  | Call_upload_file file_path dest_path filename =>
      upload_file W self file_path dest_path filename
  | Call_upload_fileobj f dest_path filename =>
      upload_fileobj W self f dest_path filename
  end.

(** A caller performs calls one after the other, whatever their outcomes. *)
Fixpoint perform_all (W : World) (self : ref) (calls : list adapter_call)
    (st : State) : State :=
  match calls with
  | [] => st
  | c :: calls' => perform_all W self calls' (perform W self c st).2
  end.

(** The environment variables and the keyword arguments that
    [AgaveWrapper.__init__] reads. *)
Definition required_environment : list string :=
  ["AGAVE_SERVER"; "AGAVE_CLIENT"; "AGAVE_API_KEY"; "AGAVE_API_SECRET"].

Definition required_params : list string :=
  ["rootpath"; "system_id"; "username"; "password"].

(** The login name is found and a password is typed. *)
Definition logged_in (W : World) (user pass : string) : Prop :=
  w_user W = inr user ∧ w_password W = inr pass.

(** The keyword arguments that [main] passes. *)
Definition main_params (user pass : string) : gmap string string :=
  <["rootpath" := "/sample/biofab"]>
    (<["system_id" := "data-sd2e-community"]>
      (<["username" := user]> (<["password" := pass]> ∅))).

(** ** The shipped configuration and a few small trees *)

Definition biofab : AgaveWrapper :=
  {| _rootpath := "/sample/biofab"; _system_id := "data-sd2e-community";
     _agave := {| api_server := "https://api.sd2e.org"; username := "operator";
                  password := "secret"; client_name := "client";
                  api_key := "key"; api_secret := "secret" |} |}.

(** A state in which the adapter has been built, at reference [0]. *)
Definition ready : State := {| trace := []; open_files := []; heap := [biofab] |}.

(** [proj/{a.txt, sub/{b.txt}}] *)
Definition proj : node :=
  Directory [("a.txt", RegularFile); ("sub", Directory [("b.txt", RegularFile)])].

(** [proj/{a.txt, link -> a.txt, pipe, gone -> nowhere}] *)
Definition linked : node :=
  Directory [("a.txt", RegularFile); ("link", Symlink (Some RegularFile));
             ("pipe", Special); ("gone", Symlink None)].

(** [proj/{sub/{b.txt}, dlink -> sub}] *)
Definition dlinked : node :=
  Directory [("sub", Directory [("b.txt", RegularFile)]);
             ("dlink", Symlink (Some (Directory [("b.txt", RegularFile)])))].

(** [proj/{a/{l -> ../big}, big/{c/{d/{}}}}] *)
Definition big : node := Directory [("c", Directory [("d", Directory [])])].

Definition detour : node :=
  Directory [("a", Directory [("l", Symlink (Some big))]); ("big", big)].

(** [proj/{A/{B/{c.txt}}}] *)
Definition nested : node :=
  Directory [("A", Directory [("B", Directory [("c.txt", RegularFile)])])].

(** The working directory holds the tree under the name [proj]. *)
Definition cwd_with (t : node) : node := Directory [("proj", t)].

(** The upload of [proj/a.txt] by [biofab]. *)
Definition upload_of_a_txt : event :=
  ImportData "data-sd2e-community" "/sample/biofab/proj"
             {| f_name := "proj/a.txt"; f_mode := "rb" |} "a.txt".

(** ** Construction, key by key *)

(** Where [AgaveWrapper.__init__] looks a key up. *)
Inductive key_source := InParams | InEnviron.

(** The lookups of [AgaveWrapper.__init__], in the order in which Python
    evaluates them. *)
Definition init_reads : list (key_source * string) :=
  [ (InParams, "rootpath"); (InParams, "system_id");
    (InEnviron, "AGAVE_SERVER"); (InParams, "username");
    (InParams, "password"); (InEnviron, "AGAVE_CLIENT");
    (InEnviron, "AGAVE_API_KEY"); (InEnviron, "AGAVE_API_SECRET") ].

Definition is_missing (W : World) (params : gmap string string)
    (r : key_source * string) : bool :=
  match r.1 with
  | InParams => match params !! r.2 with Some _ => false | None => true end
  | InEnviron => match w_environ W !! r.2 with Some _ => false | None => true end
  end.

(** The first key that a construction does not find. *)
Definition first_missing (W : World) (params : gmap string string)
  : option string :=
  match List.filter (is_missing W params) init_reads with
  | r :: _ => Some r.2
  | [] => None
  end.

(** The session that [AgaveWrapper.__init__] asks for. *)
Definition session_of (server user pass client key secret : string) : Agave :=
  {| api_server := "https://" +:+ server; username := user; password := pass;
     client_name := client; api_key := key; api_secret := secret |}.

(** The four environment variables are set. *)
Definition configured (W : World) (server client key secret : string) : Prop :=
  w_environ W !! "AGAVE_SERVER" = Some server ∧
  w_environ W !! "AGAVE_CLIENT" = Some client ∧
  w_environ W !! "AGAVE_API_KEY" = Some key ∧
  w_environ W !! "AGAVE_API_SECRET" = Some secret.

(** The session and the adapter that [main] builds. *)
Definition main_session (user pass server client key secret : string) : Agave :=
  session_of server user pass client key secret.

Definition main_adapter (user pass server client key secret : string)
  : AgaveWrapper :=
  {| _rootpath := "/sample/biofab"; _system_id := "data-sd2e-community";
     _agave := main_session user pass server client key secret |}.

(** A complete environment. *)
Definition full_environ : gmap string string :=
  <["AGAVE_SERVER" := "api.sd2e.org"]>
    (<["AGAVE_CLIENT" := "client"]>
      (<["AGAVE_API_KEY" := "key"]> (<["AGAVE_API_SECRET" := "secret"]> ∅))).

(** ** What a computation leaves behind *)

(** A computation that leaves the open files and the heap as they were. *)
Definition steady {A} (m : M A) : Prop :=
  ∀ st, open_files (m st).2 = open_files st ∧ heap (m st).2 = heap st.

(** What a run of [copy_from] with the adapter [this] may do: look at the
    local file system, open and close files for binary read, create
    directories under the root path and upload, both on the system of the
    adapter.  It opens no session and asks for no password. *)
Definition allowed (this : AgaveWrapper) (ev : event) : Prop :=
  match ev with
  | Manage systemId filePath action _ =>
      systemId = _system_id this ∧ filePath = _rootpath this ∧ action = "mkdir"
  | ImportData systemId _ f _ => systemId = _system_id this ∧ f_mode f = "rb"
  | Open f | Close f => f_mode f = "rb"
  | Connect _ | Getpass => False
  | Listdir _ | Isdir _ | Isfile _ => True
  end.

(** A computation that, run with the adapter [this] at [agave], only adds
    events that satisfy [P]. *)
Definition emits (agave : ref) (this : AgaveWrapper) (P : event → Prop)
    {A} (m : M A) : Prop :=
  ∀ st, heap st !! agave = Some this →
    ∃ new, trace (m st).2 = trace st ++ new ∧ Forall P new.

(** A computation that only adds events that satisfy [P]. *)
Definition adds (P : event → Prop) {A} (m : M A) : Prop :=
  ∀ st, ∃ new, trace (m st).2 = trace st ++ new ∧ Forall P new.

(** [p] is [base] or continues [base] after a separator. *)
Definition under (base p : string) : Prop :=
  p = base ∨ ∃ rest, p = with_sep base +:+ rest.

(** The local paths of an event are under [base]. *)
Definition touches_under (base : string) (ev : event) : Prop :=
  match ev with
  | Listdir p | Isdir p | Isfile p => under base p
  | Open f | Close f | ImportData _ _ f _ => under base (f_name f)
  | Getpass | Connect _ | Manage _ _ _ _ => True
  end.

(** [os.listdir] returns valid names. *)
Definition lists_valid_names (W : World) : Prop :=
  ∀ p names, w_listdir W p = inr names →
    Forall (fun name => valid_name name = true) names.

(** ** Errors of the local file system *)

(** The local error that follows an event: [os.listdir] raises after it
    was called, and [open] raises after [os.path.isfile] accepted a path
    that does not open. *)
Definition local_error (W : World) (ev : event) : option exn :=
  match ev with
  | Listdir p => match w_listdir W p with inl e => Some e | inr _ => None end
  | Isfile p => if w_isfile W p then w_open W p else None
  | _ => None
  end.

(** A computation stops at a local error: the event that the error follows
    is the last one, and the error is the outcome. *)
Definition stops_at_local_errors (W : World) {A} (m : M A) : Prop :=
  ∀ st out st', m st = (out, st') →
    ∃ new, trace st' = trace st ++ new ∧
      ∀ t c rest e, new = t ++ c :: rest → local_error W c = Some e →
        rest = [] ∧ out = Raised e.

(** The same world in which one path does not open. *)
Definition unreadable (path : string) (W : World) : World := {|
  w_listdir := w_listdir W; w_isdir := w_isdir W; w_isfile := w_isfile W;
  w_open p := if decide (p = path) then Some (OSError "PermissionError" p)
              else w_open W p;
  w_environ := w_environ W; w_user := w_user W; w_password := w_password W;
  w_fault := w_fault W |}.

(** ** Calls inside the root path *)

(** A remote call stays inside the root path of [this], at or under the
    relative path [remote]. *)
Definition inside (this : AgaveWrapper) (remote : string) (ev : event) : Prop :=
  match ev with
  | Manage _ filePath _ path =>
      filePath = _rootpath this ∧ under remote path ∧
      posixpath.startswith_sep path = false
  | ImportData _ filePath _ _ =>
      ∃ dest, under remote dest ∧ posixpath.startswith_sep dest = false ∧
              filePath = with_sep (_rootpath this) +:+ dest
  | _ => True
  end.

(** What [main] sends stays inside [/sample/biofab]. *)
Definition inside_biofab (ev : event) : Prop :=
  match ev with
  | Manage _ filePath _ path =>
      filePath = "/sample/biofab" ∧ posixpath.startswith_sep path = false
  | ImportData _ filePath _ _ =>
      ∃ dest, posixpath.startswith_sep dest = false ∧
              filePath = "/sample/biofab/" +:+ dest
  | _ => True
  end.

(** ** One file at a time *)

Definition is_file_event (ev : event) : bool :=
  match ev with
  | Open _ | Close _ | ImportData _ _ _ _ => true
  | _ => false
  end.

(** A trace in which a file is opened only to be uploaded at once and
    closed at once. *)
Inductive tidy : list event → Prop :=
| tidy_nil : tidy []
| tidy_other ev l : is_file_event ev = false → tidy l → tidy (ev :: l)
| tidy_upload f systemId filePath fileName l :
    tidy l →
    tidy (Open f :: ImportData systemId filePath f fileName :: Close f :: l).

(** A computation that, run with the adapter [this] at [agave], adds a
    tidy trace. *)
Definition tidily (agave : ref) (this : AgaveWrapper) {A} (m : M A) : Prop :=
  ∀ st, heap st !! agave = Some this →
    ∃ new, trace (m st).2 = trace st ++ new ∧ tidy new.

(** ** Path components *)

(** A component of a normalised path: not empty, not [.], and without
    separator. *)
Definition component (c : string) : Prop :=
  c ≠ "" ∧ c ≠ "." ∧ has_sep c = false.

(** ** Tactics for concrete data *)

(** What a concrete file system reports. *)
Ltac observe_concrete :=
  vm_compute; repeat split.

(** Membership in a list that computes. *)
Ltac find_in_list :=
  apply list_elem_of_In; vm_compute;
  repeat (first [ left; reflexivity | right ]).

(** Membership in a list given element by element. *)
Ltac in_list :=
  repeat (first [ apply list_elem_of_here | apply list_elem_of_further ]).

(** Distinctness of a list that computes. *)
Ltac distinct_names :=
  apply (bool_decide_unpack _); vm_compute; exact I.

(** * Properties *)

(** ** Induction over trees *)

Lemma node_nested_ind (P : node -> Prop)
  (Hfile : P RegularFile)
  (Hdir : ∀ es, Forall (fun e => P e.2) es → P (Directory es))
  (Hlink : ∀ t, P t → P (Symlink (Some t)))
  (Hdangling : P (Symlink None))
  (Hspecial : P Special) :
  ∀ n, P n.
Proof.
  fix IH 1. intros [ | es | [t | ] | ].
  - exact Hfile.
  - apply Hdir. induction es as [ | [name c] es IHes ].
    + constructor.
    + constructor; [ exact (IH c) | exact IHes ].
  - apply Hlink, IH.
  - exact Hdangling.
  - exact Hspecial.
Qed.

Lemma observes_entries W p es :
  observes W p (Directory es) ↔
  w_isdir W p = true ∧ w_listdir W p = inr (List.map fst es) ∧
  Forall (fun e => observes W (posixpath.join p e.1) e.2) es.
Proof.
  simpl. split; intros (Hd & Hl & Hes); (split; [ exact Hd | split; [ exact Hl | ] ]);
    clear Hd Hl.
  - induction es as [ | [name c] es IHes ]; constructor; simpl in *; tauto.
  - induction es as [ | [name c] es IHes ]; [ exact I | ].
    inversion Hes as [ | ? ? H1 H2 ]; subst. split; [ exact H1 | exact (IHes H2) ].
Qed.

(** The two tests of [copy_from] classify an observed node. *)
Lemma observes_classify W p n :
  observes W p n →
  match classify n with
  | KDir => w_isdir W p = true
  | KFile => w_isdir W p = false ∧ w_isfile W p = true ∧ w_open W p = None
  | KOther => w_isdir W p = false ∧ w_isfile W p = false
  end.
Proof.
  induction n as [ | es _ | t IH | | ] using node_nested_ind; simpl; try tauto.
Qed.

Lemma classify_dir_depth n : classify n = KDir → 0 < followed_depth n.
Proof.
  induction n as [ | es _ | t IH | | ] using node_nested_ind;
    unfold classify; simpl; try discriminate; try lia.
  exact IH.
Qed.

Lemma depth_entry es name c :
  (name, c) ∈ es → followed_depth c < followed_depth (Directory es).
Proof.
  intros Hin. cbn [followed_depth]. apply Nat.lt_succ_r.
  induction es as [ | e es IH ]; [ by apply not_elem_of_nil in Hin | ].
  apply elem_of_cons in Hin as [ <- | Hin ]; cbn [foldr]; [ simpl; lia | ].
  specialize (IH Hin). lia.
Qed.

(** ** Runs on an observed tree *)

Lemma extend_nil st : extend st [] = st.
Proof. destruct st. unfold extend. simpl. by rewrite app_nil_r. Qed.

Lemma extend_app st l1 l2 : extend (extend st l1) l2 = extend st (l1 ++ l2).
Proof. unfold extend. simpl. by rewrite app_assoc. Qed.

Lemma log_extend st e : log e st = extend st [e].
Proof. reflexivity. Qed.

Lemma remove_file_head f l : remove_file f (f :: l) = l.
Proof. simpl. by rewrite decide_True. Qed.

Section Runs.

Context (W : World) (agave : ref) (this : AgaveWrapper).
Hypothesis Hreliable : reliable W.

Lemma make_directory_run path st :
  heap st !! agave = Some this →
  make_directory W agave path st = (Returned tt, extend st [mkdir_call this path]).
Proof.
  intros Hself. unfold make_directory, bind, deref, remote_call.
  rewrite Hself, Hreliable. reflexivity.
Qed.

Lemma upload_file_run file_path dest_path filename st :
  heap st !! agave = Some this →
  w_open W file_path = None →
  upload_file W agave file_path dest_path filename st =
  (Returned tt,
   extend st [Open {| f_name := file_path; f_mode := "rb" |};
              upload_call this file_path dest_path filename;
              Close {| f_name := file_path; f_mode := "rb" |}]).
Proof.
  intros Hself Hopen.
  unfold upload_file, with_open, bind, open, try_finally, upload_fileobj, bind,
    deref, remote_call, close.
  rewrite Hopen. simpl. rewrite Hself, Hreliable. simpl.
  rewrite decide_True by reflexivity.
  unfold extend, upload_call. simpl. by rewrite <- !app_assoc.
Qed.

Lemma copy_from_unfold fuel local_path remote_path :
  copy_from W (S fuel) local_path agave remote_path =
  (make_directory W agave remote_path ;;
   files <- os_listdir W local_path ;;
   for_each files (iteration W agave fuel local_path remote_path))%py.
Proof. reflexivity. Qed.

Lemma for_each_cons {A} (x : A) l body st :
  for_each (x :: l) body st =
  match body x st with
  | (Returned _, st') => for_each l body st'
  | (Raised e, st') => (Raised e, st')
  | (OutOfFuel, st') => (OutOfFuel, st')
  end.
Proof. reflexivity. Qed.

(** On a tree that the operating system reports faithfully, with a
    reliable service and fuel for its depth (links followed), a run of
    [copy_from] returns and leaves exactly the events of [events_of]. *)
Lemma copy_from_run n :
  ∀ fuel local remote st,
    observes W local n →
    classify n = KDir →
    (followed_depth n ≤ fuel)%nat →
    heap st !! agave = Some this →
    copy_from W fuel local agave remote st =
    (Returned tt, extend st (events_of this local remote n)).
Proof.
  induction n as [ | es IH | t IH | | ] using node_nested_ind;
    intros fuel local remote st Hobs Hkind Hdepth Hself;
    try (unfold classify in Hkind; simpl in Hkind; discriminate).
  2: { apply IH; assumption. }
  apply observes_entries in Hobs as (_ & Hlist & Hobs).
  destruct fuel as [ | fuel ]; [ simpl in Hdepth; lia | ].
  assert (Hfuel : ∀ e, e ∈ es → (followed_depth e.2 ≤ fuel)%nat).
  { intros [name c] Hin. apply depth_entry in Hin. simpl in *. lia. }
  clear Hdepth Hkind.
  rewrite copy_from_unfold. unfold bind at 1.
  rewrite make_directory_run by assumption.
  unfold bind, os_listdir, bind, emit. rewrite Hlist. unfold ret.
  rewrite log_extend, extend_app. cbn [events_of app].
  set (hd := [mkdir_call this remote; Listdir local]).
  change (mkdir_call this remote :: Listdir local :: ?l) with (hd ++ l).
  generalize hd. clear hd Hlist.
  induction es as [ | [name c] es IHes ]; intros hd.
  { simpl. by rewrite app_nil_r. }
  apply Forall_cons in IH as [IHc IH]. apply Forall_cons in Hobs as [Hc Hobs].
  simpl in IHc, Hc.
  cbn [List.map fst flat_map]. rewrite for_each_cons.
  unfold iteration at 1. unfold bind at 1. unfold os_path_isdir, bind, emit, ret.
  rewrite log_extend, extend_app.
  pose proof (observes_classify _ _ _ Hc) as Hcls.
  assert (Hfuel' : ∀ e, e ∈ es → (followed_depth e.2 ≤ fuel)%nat).
  { intros e He. by apply Hfuel, list_elem_of_further. }
  destruct (classify c) eqn:Hk.
  - rewrite Hcls. rewrite IHc; try assumption; try reflexivity.
    2: { apply (Hfuel (name, c)), list_elem_of_here. }
    rewrite extend_app, (IHes IH Hobs Hfuel'). cbn [fst snd]. rewrite Hk.
    by rewrite <- !app_assoc.
  - destruct Hcls as (-> & Hf & Hopen).
    unfold os_path_isfile, bind, emit, ret. rewrite Hf.
    rewrite upload_file_run by assumption.
    rewrite log_extend, !extend_app.
    rewrite (IHes IH Hobs Hfuel'). cbn [fst snd]. rewrite Hk.
    by rewrite <- !app_assoc.
  - destruct Hcls as (-> & Hf).
    unfold os_path_isfile, bind, emit, ret. rewrite Hf.
    rewrite log_extend, !extend_app.
    rewrite (IHes IH Hobs Hfuel'). cbn [fst snd]. rewrite Hk.
    by rewrite <- !app_assoc.
Qed.

End Runs.

(** ** From the events of a run to the remote calls *)

Lemma walk_not_dir local remote n :
  classify n ≠ KDir → walk local remote n = [].
Proof.
  revert local remote.
  induction n as [ | es _ | t IH | | ] using node_nested_ind;
    intros local remote Hk; try reflexivity.
  - by destruct Hk.
  - apply IH, Hk.
Qed.

Lemma filter_filter_implied {A} (p q : A → bool) l :
  (∀ x, p x = true → q x = true) →
  List.filter p (List.filter q l) = List.filter p l.
Proof.
  intros Himp. induction l as [ | x l IH ]; [ reflexivity | ].
  simpl. destruct (q x) eqn:Hq; simpl.
  - by rewrite IH.
  - destruct (p x) eqn:Hp; [ | exact IH ].
    apply Himp in Hp. congruence.
Qed.

Lemma filter_flat_map {A B} (p : B → bool) (f : A → list B) l :
  List.filter p (List.flat_map f l) = List.flat_map (fun x => List.filter p (f x)) l.
Proof.
  induction l as [ | x l IH ]; [ reflexivity | ].
  simpl. by rewrite List.filter_app, IH.
Qed.

Lemma flat_map_flat_map {A B C} (g : B → list C) (f : A → list B) l :
  List.flat_map g (List.flat_map f l) = List.flat_map (fun x => List.flat_map g (f x)) l.
Proof.
  induction l as [ | x l IH ]; [ reflexivity | ].
  simpl. by rewrite List.flat_map_app, IH.
Qed.

Section Calls.

Context (this : AgaveWrapper).

(** The remote calls among the events of a run: the directory itself, then
    what each entry is owed, in the order of the traversal. *)
Lemma remote_events_of n :
  ∀ local remote,
    classify n = KDir →
    List.filter is_remote (events_of this local remote n) =
    mkdir_call this remote :: List.flat_map (call_of this) (walk local remote n).
Proof.
  induction n as [ | es IH | t IH | | ] using node_nested_ind;
    intros local remote Hk;
    try (unfold classify in Hk; simpl in Hk; discriminate).
  2: { apply IH, Hk. }
  cbn [events_of walk List.filter is_remote mkdir_call]. f_equal.
  rewrite filter_flat_map, flat_map_flat_map.
  clear Hk. induction es as [ | [name c] es IHes ]; [ reflexivity | ].
  apply Forall_cons in IH as [IHc IH]. cbn [List.flat_map fst snd] in *.
  rewrite (IHes IH). f_equal.
  unfold call_of at 1, e_remote. cbn [e_kind e_parent e_name e_local List.filter is_remote].
  destruct (classify c) eqn:Hc.
  - by rewrite IHc.
  - rewrite walk_not_dir by congruence. reflexivity.
  - rewrite walk_not_dir by congruence. reflexivity.
Qed.

Lemma mkdir_calls_of l :
  List.filter is_mkdir (List.flat_map (call_of this) l) =
  List.map (fun e => mkdir_call this (e_remote e)) (List.filter (is_kind KDir) l).
Proof.
  induction l as [ | e l IH ]; [ reflexivity | ].
  cbn [List.flat_map]. rewrite List.filter_app, IH.
  unfold call_of at 1, is_kind at 2. simpl. destruct (e_kind e); reflexivity.
Qed.

Lemma upload_calls_of l :
  List.filter is_upload (List.flat_map (call_of this) l) =
  List.map (fun e => upload_call this (e_local e) (e_parent e) (e_name e))
           (List.filter (is_kind KFile) l).
Proof.
  induction l as [ | e l IH ]; [ reflexivity | ].
  cbn [List.flat_map]. rewrite List.filter_app, IH.
  unfold call_of at 1, is_kind at 2. simpl. destruct (e_kind e); reflexivity.
Qed.

End Calls.

(** ** Parents come first *)



(** ** Paths are distinct *)

(** *** Strings *)

Lemma string_app_nil_r s : s +:+ "" = s.
Proof. induction s as [ | c s IH ]; [ reflexivity | ]. unfold String.app in *. simpl. by rewrite IH. Qed.

Lemma string_app_cons c s t : String c s +:+ t = String c (s +:+ t).
Proof. reflexivity. Qed.

Lemma string_app_assoc s t u : (s +:+ t) +:+ u = s +:+ (t +:+ u).
Proof.
  induction s as [ | c s IH ]; [ reflexivity | ].
  by rewrite !string_app_cons, IH.
Qed.

Lemma string_app_no_fixpoint s t : s = s +:+ t → t = "".
Proof.
  intros Heq. rewrite <- (string_app_nil_r s) in Heq at 1.
  by apply (inj (String.app s)) in Heq.
Qed.

Lemma valid_name_relative name :
  valid_name name = true → posixpath.startswith_sep name = false.
Proof.
  destruct name as [ | c s ]; [ reflexivity | ].
  unfold valid_name. simpl. destruct (bool_decide (c = posixpath.sep)); simpl; [ discriminate | done ].
Qed.

Lemma join_relative a b :
  posixpath.startswith_sep b = false → posixpath.join a b = with_sep a +:+ b.
Proof.
  intros Hb. unfold posixpath.join, with_sep. rewrite Hb.
  destruct (posixpath.is_empty a || posixpath.endswith_sep a); [ reflexivity | ].
  by rewrite string_app_assoc.
Qed.

Lemma join_valid a name :
  valid_name name = true → posixpath.join a name = with_sep a +:+ name.
Proof. intros Hv. by apply join_relative, valid_name_relative. Qed.

Lemma endswith_sep_app a b :
  posixpath.is_empty b = false →
  posixpath.endswith_sep (a +:+ b) = posixpath.endswith_sep b.
Proof.
  intros Hb. induction a as [ | c a IH ]; [ reflexivity | ].
  rewrite string_app_cons. cbn [posixpath.endswith_sep].
  destruct (a +:+ b) eqn:Hab; [ | exact IH ].
  destruct a; [ | discriminate ]. change (b = "") in Hab. subst b. discriminate.
Qed.

Lemma no_sep_endswith s : has_sep s = false → posixpath.endswith_sep s = false.
Proof.
  induction s as [ | c s IH ]; [ reflexivity | ].
  simpl. intros [Hc Hs]%orb_false_elim. destruct s; [ exact Hc | apply IH, Hs ].
Qed.

Lemma is_empty_app_r a b :
  posixpath.is_empty b = false → posixpath.is_empty (a +:+ b) = false.
Proof. intros Hb. destruct a; [ exact Hb | reflexivity ]. Qed.

Lemma valid_name_inv name :
  valid_name name = true → posixpath.is_empty name = false ∧ has_sep name = false.
Proof.
  unfold valid_name. intros [H1 H2]%andb_prop.
  split; by apply negb_true_iff.
Qed.

Lemma join_proper a name : valid_name name = true → proper (posixpath.join a name).
Proof.
  intros Hv. rewrite join_valid by done.
  apply valid_name_inv in Hv as [Hne Hsep]. split.
  - by apply is_empty_app_r.
  - rewrite endswith_sep_app by done. by apply no_sep_endswith.
Qed.

Lemma with_sep_proper b : proper b → with_sep b = b +:+ "/".
Proof. intros [H1 H2]. unfold with_sep. by rewrite H1, H2. Qed.

(** Two names followed by remainders agree only if the names agree. *)
Lemma name_unique n1 : ∀ n2 r1 r2,
  has_sep n1 = false → has_sep n2 = false → slashed r1 → slashed r2 →
  n1 +:+ r1 = n2 +:+ r2 → n1 = n2.
Proof.
  induction n1 as [ | c n1 IH ]; intros [ | d n2 ] r1 r2 H1 H2 Hr1 Hr2 Heq;
    try reflexivity.
  - exfalso. change (r1 = String d n2 +:+ r2) in Heq. subst r1.
    rewrite string_app_cons in Hr1.
    destruct Hr1 as [ | Hr1 ]; [ discriminate | ].
    simpl in Hr1, H2. by rewrite Hr1 in H2.
  - exfalso. change (String c n1 +:+ r1 = r2) in Heq. subst r2.
    rewrite string_app_cons in Hr2.
    destruct Hr2 as [ | Hr2 ]; [ discriminate | ].
    simpl in Hr2, H1. by rewrite Hr2 in H1.
  - rewrite !string_app_cons in Heq. injection Heq as -> Heq.
    simpl in H1, H2. apply orb_false_elim in H1 as [_ H1].
    apply orb_false_elim in H2 as [_ H2].
    f_equal. by apply (IH n2 r1 r2).
Qed.

(** *** Trees whose names are as [os.listdir] returns them *)

Lemma well_formed_entries es :
  well_formed (Directory es) ↔
  NoDup (List.map fst es) ∧
  Forall (fun e => valid_name e.1 = true ∧ well_formed e.2) es.
Proof.
  cbn [well_formed]. split; intros [Hnd Hes]; (split; [ exact Hnd | ]); clear Hnd.
  - induction es as [ | [name c] es IHes ]; constructor; simpl in *; tauto.
  - induction es as [ | [name c] es IHes ]; [ exact I | ].
    inversion Hes as [ | ? ? [H1 H1'] H2 ]; subst.
    split; [ exact H1 | split; [ exact H1' | exact (IHes H2) ] ].
Qed.

Lemma walk_local n : ∀ local remote,
  List.map e_local (walk local remote n) = paths local n.
Proof.
  induction n as [ | es IH | t IH | | ] using node_nested_ind;
    intros local remote; try reflexivity.
  2: { apply IH. }
  cbn [walk paths]. induction es as [ | [name c] es IHes ]; [ reflexivity | ].
  apply Forall_cons in IH as [IHc IH]. cbn [List.flat_map fst snd] in *.
  rewrite List.map_app, List.map_cons, IHc, (IHes IH). reflexivity.
Qed.

Lemma walk_remote n : ∀ local remote,
  List.map e_remote (walk local remote n) = paths remote n.
Proof.
  induction n as [ | es IH | t IH | | ] using node_nested_ind;
    intros local remote; try reflexivity.
  2: { apply IH. }
  cbn [walk paths]. induction es as [ | [name c] es IHes ]; [ reflexivity | ].
  apply Forall_cons in IH as [IHc IH]. cbn [List.flat_map fst snd] in *.
  rewrite List.map_app, List.map_cons, IHc, (IHes IH). reflexivity.
Qed.

(** Below a proper path, every path continues it with a separator. *)
Lemma paths_continue n : ∀ b p,
  proper b → well_formed n → p ∈ paths b n → ∃ rest, p = b +:+ "/" +:+ rest.
Proof.
  induction n as [ | es IH | t IH | | ] using node_nested_ind;
    intros b p Hb Hwf Hin; try (by apply not_elem_of_nil in Hin).
  2: { by apply IH. }
  apply well_formed_entries in Hwf as [_ Hwf]. cbn [paths] in Hin.
  induction es as [ | [name c] es IHes ]; [ by apply not_elem_of_nil in Hin | ].
  apply Forall_cons in IH as [IHc IH]. apply Forall_cons in Hwf as [[Hv Hc] Hwf].
  cbn [List.flat_map fst snd] in *.
  assert (Hj : posixpath.join b name = b +:+ "/" +:+ name).
  { by rewrite join_valid, with_sep_proper, string_app_assoc. }
  rewrite <- app_comm_cons in Hin.
  apply elem_of_cons in Hin as [ -> | Hin ]; [ by exists name | ].
  apply elem_of_app in Hin as [ Hin | Hin ]; [ | by apply IHes ].
  apply IHc in Hin as [rest ->]; [ | by apply join_proper | done ].
  exists (name +:+ "/" +:+ rest). rewrite Hj. by rewrite !string_app_assoc.
Qed.

(** What an entry contributes: its own path, then the paths below it. *)
Lemma entry_paths_shape base name c p :
  valid_name name = true → well_formed c →
  p ∈ posixpath.join base name :: paths (posixpath.join base name) c →
  ∃ r, slashed r ∧ p = with_sep base +:+ (name +:+ r).
Proof.
  intros Hv Hwf Hin. rewrite join_valid in Hin by done.
  apply elem_of_cons in Hin as [ -> | Hin ].
  - exists "". split; [ by left | by rewrite string_app_nil_r ].
  - apply paths_continue in Hin as [rest ->]; [ | | done ].
    + exists ("/" +:+ rest). split; [ by right | by rewrite !string_app_assoc ].
    + rewrite <- join_valid by done. by apply join_proper.
Qed.

Lemma entries_paths_shape base es p :
  Forall (fun e => valid_name e.1 = true ∧ well_formed e.2) es →
  p ∈ paths base (Directory es) →
  ∃ name r, name ∈ List.map fst es ∧ valid_name name = true ∧ slashed r ∧
            p = with_sep base +:+ (name +:+ r).
Proof.
  intros Hwf Hin. cbn [paths] in Hin.
  induction es as [ | [name c] es IHes ]; [ by apply not_elem_of_nil in Hin | ].
  apply Forall_cons in Hwf as [[Hv Hc] Hwf]. cbn [List.flat_map List.map fst snd] in *.
  apply elem_of_app in Hin as [ Hin | Hin ].
  - apply entry_paths_shape in Hin as (r & Hr & ->); [ | done.. ].
    exists name, r. split; [ apply list_elem_of_here | done ].
  - destruct (IHes Hwf Hin) as (name' & r & Hn & Hv' & Hr & ->).
    exists name', r. split; [ by apply list_elem_of_further | done ].
Qed.

Lemma paths_NoDup n : ∀ base, well_formed n → NoDup (paths base n).
Proof.
  induction n as [ | es IH | t IH | | ] using node_nested_ind;
    intros base Hwf; try apply NoDup_nil_2.
  2: { by apply IH. }
  apply well_formed_entries in Hwf as [Hnd Hwf]. cbn [paths].
  induction es as [ | [name c] es IHes ]; [ apply NoDup_nil_2 | ].
  apply Forall_cons in IH as [IHc IH]. pose proof Hwf as Hwf0.
  apply Forall_cons in Hwf as [[Hv Hc] Hwf].
  cbn [List.flat_map List.map fst snd] in *. apply NoDup_cons in Hnd as [Hfresh Hnd].
  change (?x :: ?l ++ ?k) with ((x :: l) ++ k).
  apply NoDup_app. split; [ | split ].
  - apply NoDup_cons. split; [ | by apply IHc ].
    intros Hin. apply paths_continue in Hin as [rest Hin]; [ | by apply join_proper | done ].
    by apply string_app_no_fixpoint in Hin.
  - intros p Hp Hq.
    apply entry_paths_shape in Hp as (r & Hr & ->); [ | done.. ].
    apply (entries_paths_shape base es) in Hq as (name' & r' & Hn & Hv' & Hr' & Heq);
      [ | done ].
    apply (inj (String.app _)) in Heq.
    apply valid_name_inv in Hv as [_ Hv]. apply valid_name_inv in Hv' as [_ Hv'].
    apply name_unique in Heq; [ | done.. ]. by subst name'.
  - by apply IHes.
Qed.

Lemma paths_fresh_base n base : well_formed n → base ∉ paths base n.
Proof.
  revert base.
  induction n as [ | es _ | t IH | | ] using node_nested_ind;
    intros base Hwf Hin; try (by apply not_elem_of_nil in Hin).
  2: { by apply (IH base). }
  apply well_formed_entries in Hwf as [_ Hwf].
  apply entries_paths_shape in Hin as (name & r & _ & Hv & _ & Heq); [ | done ].
  apply valid_name_inv in Hv as [Hne _].
  unfold with_sep in Heq.
  destruct (posixpath.is_empty base || posixpath.endswith_sep base).
  - apply string_app_no_fixpoint in Heq. destruct name; discriminate.
  - rewrite string_app_assoc in Heq. apply string_app_no_fixpoint in Heq. discriminate.
Qed.

(** ** The calls of a complete run *)



Lemma NoDup_map_agree {A B} (f : A → B) l x y :
  NoDup (List.map f l) → x ∈ l → y ∈ l → f x = f y → x = y.
Proof.
  induction l as [ | z l IH ]; [ by intros _ ?%not_elem_of_nil | ].
  cbn [List.map]. intros [Hz Hl]%NoDup_cons Hx Hy Heq.
  apply elem_of_cons in Hx as [ -> | Hx ]; apply elem_of_cons in Hy as [ -> | Hy ].
  - reflexivity.
  - destruct Hz. rewrite Heq. apply list_elem_of_In, List.in_map, list_elem_of_In, Hy.
  - destruct Hz. rewrite <- Heq. apply list_elem_of_In, List.in_map, list_elem_of_In, Hx.
  - by apply IH.
Qed.



Section Complete.

Context (W : World) (agave : ref) (this : AgaveWrapper).
Context (n : node) (fuel : nat) (local remote : string) (st : State).
Hypothesis Hobs : observes W local n.
Hypothesis Hdir : classify n = KDir.
Hypothesis Hreliable : reliable W.
Hypothesis Hself : heap st !! agave = Some this.
Hypothesis Hfuel : (followed_depth n ≤ fuel)%nat.

Lemma complete_run :
  copy_from W fuel local agave remote st =
  (Returned tt, extend st (events_of this local remote n)).
Proof. by apply copy_from_run. Qed.

Lemma complete_mkdirs :
  List.filter is_mkdir (events_of this local remote n) =
  List.map (mkdir_call this) (followed_directories local remote n).
Proof.
  rewrite <- (filter_filter_implied is_mkdir is_remote) by (by intros []).
  rewrite remote_events_of by done. unfold followed_directories.
  cbn [List.filter is_mkdir mkdir_call List.map]. f_equal.
  rewrite mkdir_calls_of. by rewrite List.map_map.
Qed.

Lemma complete_uploads :
  List.filter is_upload (events_of this local remote n) =
  List.map (fun e => upload_call this (e_local e) (e_parent e) (e_name e))
           (followed_files local remote n).
Proof.
  rewrite <- (filter_filter_implied is_upload is_remote) by (by intros []).
  rewrite remote_events_of by done.
  cbn [List.filter is_upload mkdir_call]. apply upload_calls_of.
Qed.

End Complete.

Lemma elem_of_list_filter_bool {A} (p : A → bool) l x :
  x ∈ List.filter p l ↔ (x ∈ l ∧ p x = true).
Proof. rewrite !list_elem_of_In. apply List.filter_In. Qed.

Lemma elem_of_list_map {A B} (f : A → B) l y :
  y ∈ List.map f l ↔ ∃ x, f x = y ∧ x ∈ l.
Proof.
  rewrite list_elem_of_In, List.in_map_iff.
  split; intros (x & Hx & Hin); exists x; split; try done; by apply list_elem_of_In.
Qed.

Lemma is_kind_true k e : is_kind k e = true ↔ e_kind e = k.
Proof. unfold is_kind. apply bool_decide_eq_true. Qed.

(** ** Trees without symbolic links *)










(** ** Files reached through directories *)

Lemma walk_stat n : ∀ m local remote,
  stat n = Some m → walk local remote n = walk local remote m.
Proof.
  induction n as [ | es _ | t IH | | ] using node_nested_ind;
    intros m local remote Hstat; simpl in Hstat; try by injection Hstat as <-.
  - by apply IH.
  - discriminate.
Qed.

Lemma well_formed_stat n : ∀ m, stat n = Some m → well_formed n → well_formed m.
Proof.
  induction n as [ | es _ | t IH | | ] using node_nested_ind;
    intros m Hstat Hwf; simpl in Hstat; try by injection Hstat as <-.
  - by apply IH.
  - discriminate.
Qed.

Lemma lookup_entry_elem_of name es c :
  lookup_entry name es = Some c → (name, c) ∈ es.
Proof.
  induction es as [ | [n' c'] es IH ]; [ discriminate | ].
  simpl. destruct (decide (n' = name)) as [ -> | ].
  - intros [= ->]. apply list_elem_of_here.
  - intros Hl. by apply list_elem_of_further, IH.
Qed.

(** An entry of a directory, and everything below it, is in the walk. *)
Lemma walk_entry local remote es name c :
  (name, c) ∈ es →
  {| e_local := posixpath.join local name; e_parent := remote; e_name := name;
     e_kind := classify c; e_type := lstat_type c |}
    ∈ walk local remote (Directory es) ∧
  ∀ e, e ∈ walk (posixpath.join local name) (posixpath.join remote name) c →
       e ∈ walk local remote (Directory es).
Proof.
  intros Hin. cbn [walk].
  induction es as [ | x es IH ]; [ by apply not_elem_of_nil in Hin | ].
  cbn [List.flat_map]. apply elem_of_cons in Hin as [ <- | Hin ].
  - cbn [fst snd]. split.
    + apply elem_of_app. left. apply list_elem_of_here.
    + intros e He. apply elem_of_app. left. by apply list_elem_of_further.
  - destruct (IH Hin) as [H1 H2]. split.
    + apply elem_of_app. by right.
    + intros e He. apply elem_of_app. right. by apply H2.
Qed.

(** A regular file reached through the directories [dirs] under the name
    [name] is an entry of the walk, with the paths that [copy_from] builds
    on the way. *)
Lemma resolve_file_entry dirs : ∀ n local remote name,
  resolve (dirs ++ [name]) n = Some RegularFile →
  ∃ e, e ∈ walk local remote n ∧ e_kind e = KFile ∧
       e_local e = foldl posixpath.join local (dirs ++ [name]) ∧
       e_parent e = foldl posixpath.join remote dirs ∧
       e_name e = name.
Proof.
  induction dirs as [ | d dirs IH ]; intros n local remote name Hres.
  - cbn [app resolve] in Hres.
    destruct (stat n) as [ [ | es | | ] | ] eqn:Hstat; try discriminate.
    destruct (lookup_entry name es) as [ c | ] eqn:Hl; [ | discriminate ].
    apply lookup_entry_elem_of in Hl.
    destruct (walk_entry local remote es name c Hl) as [He _].
    rewrite (walk_stat n _ local remote Hstat).
    eexists. split; [ exact He | ].
    repeat split. unfold classify. cbn [e_kind]. by rewrite Hres.
  - cbn [app resolve] in Hres.
    destruct (stat n) as [ [ | es | | ] | ] eqn:Hstat; try discriminate.
    destruct (lookup_entry d es) as [ c | ] eqn:Hl; [ | discriminate ].
    apply lookup_entry_elem_of in Hl.
    destruct (walk_entry local remote es d c Hl) as [_ Hbelow].
    destruct (IH c (posixpath.join local d) (posixpath.join remote d) name Hres)
      as (e & He & Hk & Hlocal & Hparent & Hname).
    exists e. rewrite (walk_stat n _ local remote Hstat).
    split; [ by apply Hbelow | ]. done.
Qed.

Lemma well_formed_entry es name c :
  well_formed (Directory es) → (name, c) ∈ es →
  valid_name name = true ∧ well_formed c.
Proof.
  intros [_ Hwf]%well_formed_entries Hin.
  rewrite Forall_forall in Hwf. by apply (Hwf (name, c)).
Qed.

Lemma resolve_valid_names names : ∀ n m,
  well_formed n → resolve names n = Some m →
  Forall (fun name => valid_name name = true) names.
Proof.
  induction names as [ | d names IH ]; intros n m Hwf Hres; [ constructor | ].
  cbn [resolve] in Hres.
  destruct (stat n) as [ [ | es | | ] | ] eqn:Hstat; try discriminate.
  destruct (lookup_entry d es) as [ c | ] eqn:Hl; [ | discriminate ].
  apply lookup_entry_elem_of in Hl.
  apply (well_formed_stat n _ Hstat) in Hwf.
  destruct (well_formed_entry es d c Hwf Hl) as [Hv Hc].
  constructor; [ exact Hv | by apply (IH c m) ].
Qed.

(** *** Joins written out *)

Lemma join_proper_valid b name :
  proper b → valid_name name = true →
  posixpath.join b name = b +:+ "/" +:+ name.
Proof.
  intros Hb Hv. by rewrite join_valid, with_sep_proper, string_app_assoc.
Qed.

Lemma sep_join_cons a x xs :
  posixpath.sep_join (a :: x :: xs) = a +:+ "/" +:+ posixpath.sep_join (x :: xs).
Proof. reflexivity. Qed.

Lemma sep_join_merge a x xs :
  posixpath.sep_join ((a +:+ "/" +:+ x) :: xs) = posixpath.sep_join (a :: x :: xs).
Proof.
  destruct xs as [ | y ys ]; [ reflexivity | ].
  rewrite !sep_join_cons. by rewrite !string_app_assoc.
Qed.

(** Joining valid names one after the other onto a proper path writes them
    out with separators. *)
Lemma foldl_join_sep_join names : ∀ b,
  proper b → Forall (fun name => valid_name name = true) names →
  foldl posixpath.join b names = posixpath.sep_join (b :: names) ∧
  proper (foldl posixpath.join b names).
Proof.
  induction names as [ | x names IH ]; intros b Hb Hnames; [ done | ].
  apply Forall_cons in Hnames as [Hx Hnames]. cbn [foldl].
  destruct (IH (posixpath.join b x)) as [Heq Hp];
    [ by apply join_proper | done | ].
  split; [ | exact Hp ].
  rewrite Heq, join_proper_valid by done. apply sep_join_merge.
Qed.

Lemma startswith_sep_app a b :
  posixpath.is_empty a = false →
  posixpath.startswith_sep (a +:+ b) = posixpath.startswith_sep a.
Proof. by destruct a. Qed.

Lemma startswith_sep_sep_join a names :
  posixpath.is_empty a = false →
  posixpath.startswith_sep (posixpath.sep_join (a :: names))
  = posixpath.startswith_sep a.
Proof.
  intros Ha. destruct names as [ | x xs ]; [ reflexivity | ].
  rewrite sep_join_cons. by apply startswith_sep_app.
Qed.

Lemma sep_join_snoc a names x :
  posixpath.sep_join ((a :: names) ++ [x])
  = posixpath.sep_join (a :: names) +:+ "/" +:+ x.
Proof.
  revert a. induction names as [ | y ys IH ]; intros a; [ reflexivity | ].
  cbn [app] in *. rewrite !sep_join_cons, IH. by rewrite !string_app_assoc.
Qed.

(** The destination of an upload, written out. *)
Lemma destination_sep_join rootpath remote dirs name :
  proper rootpath → proper remote → posixpath.startswith_sep remote = false →
  Forall (fun name => valid_name name = true) (dirs ++ [name]) →
  posixpath.join (posixpath.join rootpath (foldl posixpath.join remote dirs)) name
  = posixpath.sep_join (rootpath :: remote :: dirs ++ [name]).
Proof.
  intros Hroot Hremote Hrel [Hdirs Hname]%Forall_app.
  apply Forall_cons in Hname as [Hname _].
  destruct (foldl_join_sep_join dirs remote Hremote Hdirs) as [Heq Hdest].
  assert (Hrel' : posixpath.startswith_sep (foldl posixpath.join remote dirs) = false).
  { rewrite Heq, startswith_sep_sep_join; [ done | apply Hremote ]. }
  rewrite (join_relative rootpath) by done.
  rewrite (with_sep_proper rootpath) by done.
  assert (Hp : proper ((rootpath +:+ "/") +:+ foldl posixpath.join remote dirs)).
  { destruct Hdest as [Hne Hend]. split.
    - by apply is_empty_app_r.
    - by rewrite endswith_sep_app. }
  rewrite join_proper_valid by done.
  rewrite Heq.
  change (rootpath :: remote :: dirs ++ [name])
    with ((rootpath :: remote :: dirs) ++ [name]).
  rewrite sep_join_snoc, sep_join_cons. by rewrite !string_app_assoc.
Qed.

(** ** The file system of a tree reports the tree *)

Lemma split_not_nil s : posixpath.split s ≠ [].
Proof.
  destruct s as [ | c s ]; [ done | ]. simpl.
  destruct (bool_decide (c = posixpath.sep)); [ done | ].
  by destruct (posixpath.split s).
Qed.

Lemma split_app_sep a b :
  posixpath.split (a +:+ String "/" b) = posixpath.split a ++ posixpath.split b.
Proof.
  induction a as [ | c a IH ]; [ reflexivity | ].
  rewrite string_app_cons. cbn [posixpath.split]. rewrite IH.
  destruct (bool_decide (c = posixpath.sep)); [ reflexivity | ].
  pose proof (split_not_nil a) as Ha.
  by destruct (posixpath.split a).
Qed.

Lemma split_name name : has_sep name = false → posixpath.split name = [name].
Proof.
  induction name as [ | c name IH ]; [ reflexivity | ].
  simpl. intros [-> Hs]%orb_false_elim. by rewrite IH.
Qed.

Lemma path_components_join p name :
  proper p → valid_name name = true → name ≠ "." →
  path_components (posixpath.join p name) = path_components p ++ [name].
Proof.
  intros Hp Hv Hdot. rewrite join_proper_valid by done.
  apply valid_name_inv in Hv as [Hne Hsep].
  unfold path_components.
  change (p +:+ "/" +:+ name) with (p +:+ String "/" name).
  rewrite split_app_sep, List.filter_app, (split_name name) by done.
  f_equal. cbn [List.filter].
  rewrite (bool_decide_eq_false_2 (name = "")) by (by destruct name).
  by rewrite (bool_decide_eq_false_2 (name = ".")).
Qed.

Lemma resolve_snoc comps : ∀ cwd es name c,
  resolve comps cwd = Some (Directory es) →
  lookup_entry name es = Some c →
  resolve (comps ++ [name]) cwd = stat c.
Proof.
  induction comps as [ | x comps IH ]; intros cwd es name c Hres Hl.
  - cbn [app resolve] in *. by rewrite Hres, Hl.
  - cbn [app resolve] in *.
    destruct (stat cwd) as [ [ | es' | | ] | ]; try discriminate.
    destruct (lookup_entry x es'); [ | discriminate ].
    by apply (IH _ es).
Qed.

Lemma lookup_entry_NoDup es name c :
  NoDup (List.map fst es) → (name, c) ∈ es → lookup_entry name es = Some c.
Proof.
  induction es as [ | [n' c'] es IH ]; [ by intros _ ?%not_elem_of_nil | ].
  cbn [List.map fst]. intros [Hfresh Hnd]%NoDup_cons Hin. simpl.
  apply elem_of_cons in Hin as [ [= <- <-] | Hin ].
  - by rewrite decide_True.
  - rewrite decide_False; [ by apply IH | ].
    intros ->. apply Hfresh, elem_of_list_map. by exists (name, c).
Qed.

Lemma dotless_entries es :
  dotless (Directory es) ↔ Forall (fun e => e.1 ≠ "." ∧ dotless e.2) es.
Proof.
  cbn [dotless]. split; intros Hes.
  - induction es as [ | [name c] es IHes ]; constructor; simpl in *; tauto.
  - induction es as [ | [name c] es IHes ]; [ exact I | ].
    inversion Hes as [ | ? ? [H1 H1'] H2 ]; subst.
    split; [ exact H1 | split; [ exact H1' | exact (IHes H2) ] ].
Qed.

(** Whatever a relative path resolves to in the file system of [cwd] is
    what the operating system reports there. *)
Lemma fs_world_observes cwd environ n : ∀ p,
  proper p → posixpath.startswith_sep p = false →
  resolve (path_components p) cwd = stat n →
  well_formed n → dotless n →
  observes (fs_world cwd environ) p n.
Proof.
  induction n as [ | es IH | t IH | | ] using node_nested_ind;
    intros p Hp Hrel Hres Hwf Hdot;
    assert (Hstat : fs_stat cwd p = resolve (path_components p) cwd)
      by (unfold fs_stat; destruct Hp as [-> _]; by rewrite Hrel).
  - simpl. by rewrite Hstat, Hres.
  - apply observes_entries. simpl. rewrite Hstat, Hres.
    split; [ done | ]. split; [ done | ].
    apply well_formed_entries in Hwf as [Hnd Hwf].
    apply dotless_entries in Hdot.
    rewrite Forall_forall in IH, Hwf, Hdot. apply Forall_forall.
    intros [name c] Hin. cbn [fst snd].
    destruct (Hwf _ Hin) as [Hv Hc]. destruct (Hdot _ Hin) as [Hname Hd].
    cbn [fst snd] in *.
    apply (IH _ Hin); try done.
    + by apply join_proper.
    + rewrite join_proper_valid by done.
      rewrite startswith_sep_app; [ done | apply Hp ].
    + rewrite path_components_join by done.
      apply (resolve_snoc _ _ es); [ done | by apply lookup_entry_NoDup ].
  - by apply IH.
  - simpl. by rewrite Hstat, Hres.
  - simpl. by rewrite Hstat, Hres.
Qed.

(** In particular, a tree held by the working directory under the name
    [proj] is observed at the path [proj]. *)
Lemma fs_world_observes_proj t environ :
  well_formed t → dotless t →
  observes (fs_world (cwd_with t) environ) "proj" t.
Proof.
  intros Hwf Hdot. by apply fs_world_observes.
Qed.

(** On the file system of a well-formed tree a run of [copy_from] is
    complete, whatever the tree. *)
Lemma fs_world_complete_run t environ agave this fuel st :
  well_formed t → dotless t → classify t = KDir →
  heap st !! agave = Some this → (followed_depth t ≤ fuel)%nat →
  copy_from (fs_world (cwd_with t) environ) fuel "proj" agave "proj" st =
  (Returned tt, extend st (events_of this "proj" "proj" t)).
Proof.
  intros Hwf Hdot Hdir Hself Hfuel.
  apply copy_from_run; try done. by apply fs_world_observes_proj.
Qed.

(** ** The directories that are created *)




(** The create-directory calls on [proj/{sub/{b.txt}, dlink -> sub}]. *)
Example dlinked_directories :
  followed_directories "proj" "proj" dlinked
    = ["proj"; "proj/sub"; "proj/dlink"] ∧
  directories "proj" "proj" dlinked = ["proj"; "proj/sub"].
Proof. split; reflexivity. Qed.

(** ** The files that are uploaded *)




(** The uploads on [proj/{sub/{b.txt}, dlink -> sub}]: the file below the
    link is uploaded a second time, to the directory made for the link. *)
Example dlinked_uploads :
  List.map e_local (followed_files "proj" "proj" dlinked)
    = ["proj/sub/b.txt"; "proj/dlink/b.txt"] ∧
  List.map e_local (regular_files "proj" "proj" dlinked) = ["proj/sub/b.txt"].
Proof. split; reflexivity. Qed.

Example proj_well_formed : well_formed proj.
Proof.
  split; [ distinct_names | ].
  repeat split. distinct_names.
Qed.

(** The scenario of the specification: [proj/{a.txt, sub/{b.txt}}] copied to
    [proj]. *)
Example proj_remote_calls :
  List.filter is_remote
    (trace (copy_from (fs_world (cwd_with proj) ∅) 2 "proj" 0 "proj" ready).2) =
  [ Manage "data-sd2e-community" "/sample/biofab" "mkdir" "proj";
    ImportData "data-sd2e-community" "/sample/biofab/proj"
               {| f_name := "proj/a.txt"; f_mode := "rb" |} "a.txt";
    Manage "data-sd2e-community" "/sample/biofab" "mkdir" "proj/sub";
    ImportData "data-sd2e-community" "/sample/biofab/proj/sub"
               {| f_name := "proj/sub/b.txt"; f_mode := "rb" |} "b.txt" ].
Proof. reflexivity. Qed.

(** An empty directory: one create-directory call, no upload. *)
Example empty_directory_calls :
  List.filter is_remote
    (trace (copy_from (fs_world (cwd_with (Directory [])) ∅) 1 "proj" 0 "proj"
                      ready).2) =
  [ Manage "data-sd2e-community" "/sample/biofab" "mkdir" "proj" ].
Proof. reflexivity. Qed.

(** ** Entries that are neither files nor directories *)

(** C3 does not hold as it is stated.  A symbolic link is neither a
    regular file nor a directory, yet a link to a regular file is
    uploaded: in [proj/{a.txt, link -> a.txt, pipe, gone -> nowhere}] the
    entry [link] gets an upload call. *)
Lemma symlink_to_a_file_is_uploaded :
  ¬ (∀ e, e ∈ walk "proj" "proj" linked →
          e_type e ≠ TRegular → e_type e ≠ TDirectory →
          skipped biofab e
            (trace (copy_from (fs_world (cwd_with linked) ∅) 1
                              "proj" 0 "proj" ready).2)).
Proof.
  intros Hclaim.
  destruct (Hclaim {| e_local := "proj/link"; e_parent := "proj";
                      e_name := "link"; e_kind := KFile; e_type := TSymlink |})
    as [_ Hupload].
  - find_in_list.
  - discriminate.
  - discriminate.
  - apply (Hupload "proj" "link"). find_in_list.
Qed.

(** C3, as the code has it.  An entry for which neither [os.path.isdir]
    nor [os.path.isfile] holds (a dangling link, a special file) gets no
    call: no directory is created for it and it is not uploaded.  A link
    that resolves to a regular file or to a directory is treated as what
    it resolves to: the file is uploaded, the directory is created. *)
Theorem copy_from_skips_other_entries
  W agave this n fuel local remote st :
  observes W local n → classify n = KDir → reliable W →
  heap st !! agave = Some this → (followed_depth n ≤ fuel)%nat → well_formed n →
  ∃ new,
    copy_from W fuel local agave remote st = (Returned tt, extend st new) ∧
    (∀ e, e ∈ walk local remote n → e_kind e = KOther → skipped this e new) ∧
    (∀ e, e ∈ walk local remote n → e_kind e = KFile →
          upload_call this (e_local e) (e_parent e) (e_name e) ∈ new) ∧
    (∀ e, e ∈ walk local remote n → e_kind e = KDir →
          mkdir_call this (e_remote e) ∈ new).
Proof.
  intros Hobs Hdir Hrel Hself Hfuel Hwf.
  exists (events_of this local remote n).
  split; [ by apply complete_run | ].
  pose proof (complete_mkdirs this n local remote Hdir) as Hmk.
  pose proof (complete_uploads this n local remote Hdir) as Hup.
  assert (Hfind : ∀ (p : event → bool) ev, p ev = true →
            ev ∈ List.filter p (events_of this local remote n) →
            ev ∈ events_of this local remote n).
  { intros p ev _ Hin. by apply elem_of_list_filter_bool in Hin as [Hin _]. }
  split; [ | split ].
  - intros e Hin Hk. split.
    + intros Hev.
      assert (Hev' : mkdir_call this (e_remote e) ∈
                List.filter is_mkdir (events_of this local remote n)).
      { by apply elem_of_list_filter_bool. }
      rewrite Hmk in Hev'.
      apply elem_of_list_map in Hev' as (r & Heq & Hr).
      injection Heq as ->. unfold followed_directories in Hr.
      apply elem_of_cons in Hr as [ Hr | Hr ].
      * assert (Hp : e_remote e ∈ paths remote n).
        { rewrite <- (walk_remote n local remote).
          apply elem_of_list_map. by exists e. }
        rewrite Hr in Hp. by apply (paths_fresh_base n remote Hwf).
      * apply elem_of_list_map in Hr as (e' & Heq & He').
        apply elem_of_list_filter_bool in He' as [He' Hk'%is_kind_true].
        assert (e' = e) as ->; [ | congruence ].
        apply (NoDup_map_agree e_remote (walk local remote n)); try done.
        rewrite walk_remote. by apply paths_NoDup.
    + intros dest name Hev.
      assert (Hev' : upload_call this (e_local e) dest name ∈
                List.filter is_upload (events_of this local remote n)).
      { by apply elem_of_list_filter_bool. }
      rewrite Hup in Hev'.
      apply elem_of_list_map in Hev' as (e' & Heq & He').
      apply elem_of_list_filter_bool in He' as [He' Hk'%is_kind_true].
      unfold upload_call in Heq. injection Heq as _ Heq _.
      assert (e' = e) as ->; [ | congruence ].
      apply (NoDup_map_agree e_local (walk local remote n)); try done.
      rewrite walk_local. by apply paths_NoDup.
  - intros e Hin Hk. apply (Hfind is_upload); [ reflexivity | ].
    rewrite Hup. apply elem_of_list_map. exists e. split; [ reflexivity | ].
    apply elem_of_list_filter_bool. split; [ done | by apply is_kind_true ].
  - intros e Hin Hk. apply (Hfind is_mkdir); [ reflexivity | ].
    rewrite Hmk. apply elem_of_list_map. exists (e_remote e).
    split; [ reflexivity | ]. unfold followed_directories. apply list_elem_of_further.
    apply elem_of_list_map. exists e. split; [ reflexivity | ].
    apply elem_of_list_filter_bool. split; [ done | by apply is_kind_true ].
Qed.

Lemma copy_from_skips_other_entries_witness :
  ∃ new,
    copy_from (fs_world (cwd_with linked) ∅) 1 "proj" 0 "proj" ready =
      (Returned tt, extend ready new) ∧
    (∀ e, e ∈ walk "proj" "proj" linked → e_kind e = KOther →
          skipped biofab e new) ∧
    (∀ e, e ∈ walk "proj" "proj" linked → e_kind e = KFile →
          upload_call biofab (e_local e) (e_parent e) (e_name e) ∈ new) ∧
    (∀ e, e ∈ walk "proj" "proj" linked → e_kind e = KDir →
          mkdir_call biofab (e_remote e) ∈ new).
Proof.
  apply (copy_from_skips_other_entries
           (fs_world (cwd_with linked) ∅) 0 biofab linked 1 "proj" "proj" ready).
  - observe_concrete.
  - reflexivity.
  - intros t e. reflexivity.
  - reflexivity.
  - vm_compute. lia.
  - split; [ distinct_names | repeat split ].
Defined.

(** ** Failure of a remote call *)

Section FailFast.

Context (W : World).

Lemma fail_fast_silent {A} (m : M A) :
  (∀ st, (m st).2 = st) → fail_fast W m.
Proof.
  intros Hm st out st' Hrun. exists [].
  pose proof (Hm st) as Hst. rewrite Hrun in Hst. simpl in Hst. subst st'.
  split; [ by rewrite app_nil_r | ].
  intros t c rest e Heq. by destruct t.
Qed.

Lemma fail_fast_local {A} (m : M A) ev :
  is_remote ev = false →
  (∀ st, trace (m st).2 = trace st ++ [ev]) → fail_fast W m.
Proof.
  intros Hev Hm st out st' Hrun. exists [ev].
  pose proof (Hm st) as Hst. rewrite Hrun in Hst. split; [ exact Hst | ].
  intros t c rest e Heq Hc.
  destruct t as [ | x [ | y t ] ]; try discriminate.
  injection Heq as -> <-. congruence.
Qed.

Lemma fail_fast_bind {A B} (m : M A) (k : A → M B) :
  fail_fast W m → (∀ a, fail_fast W (k a)) → fail_fast W (bind m k).
Proof.
  intros Hm Hk st out st' Hrun. unfold bind in Hrun.
  destruct (m st) as [o1 st1] eqn:Hm1.
  destruct (Hm _ _ _ Hm1) as (new1 & Ht1 & Hf1).
  destruct o1 as [ a | e1 | ].
  - destruct (Hk a _ _ _ Hrun) as (new2 & Ht2 & Hf2).
    exists (new1 ++ new2). split; [ by rewrite Ht2, Ht1, app_assoc | ].
    intros t c rest e Heq Hc Hfault.
    apply app_eq_inv in Heq as [ (k' & Hn1 & Hrest) | (k' & -> & Hn2) ].
    + destruct k' as [ | c' k' ].
      * rewrite app_nil_r in Hn1. subst new1.
        apply (Hf2 [] c rest e); [ done | done | ].
        by rewrite app_nil_r, Ht1.
      * simpl in Hrest. injection Hrest as <- ->.
        destruct (Hf1 t c k' e Hn1 Hc Hfault) as [_ Hout]. discriminate.
    + apply (Hf2 k' c rest e Hn2 Hc). by rewrite Ht1, <- app_assoc.
  - injection Hrun as <- <-. exists new1. split; [ done | ].
    intros t c rest e Heq Hc Hfault.
    destruct (Hf1 t c rest e Heq Hc Hfault) as [Hrest Hout].
    split; [ done | ]. by injection Hout as ->.
  - injection Hrun as <- <-. exists new1. split; [ done | ].
    intros t c rest e Heq Hc Hfault.
    destruct (Hf1 t c rest e Heq Hc Hfault) as [_ Hout]. discriminate.
Qed.

Lemma fail_fast_remote_call ev : fail_fast W (remote_call W ev).
Proof.
  intros st out st' Hrun. exists [ev]. unfold remote_call in Hrun.
  split.
  { destruct (w_fault W (trace st) ev); by injection Hrun as <- <-. }
  intros t c rest e Heq Hc Hfault.
  destruct t as [ | x [ | y t ] ]; try discriminate.
  injection Heq as -> <-. rewrite app_nil_r in Hfault. rewrite Hfault in Hrun.
  injection Hrun as <- <-. split; reflexivity.
Qed.

Lemma fail_fast_for_each {A} (l : list A) body :
  (∀ x, fail_fast W (body x)) → fail_fast W (for_each l body).
Proof.
  intros Hbody. induction l as [ | x l IH ].
  - by apply fail_fast_silent.
  - apply fail_fast_bind; [ apply Hbody | intros _; exact IH ].
Qed.

Lemma fail_fast_deref self : fail_fast W (deref self).
Proof.
  apply fail_fast_silent. intros st. unfold deref. by destruct (heap st !! self).
Qed.

Lemma fail_fast_make_directory self path :
  fail_fast W (make_directory W self path).
Proof.
  apply fail_fast_bind; [ apply fail_fast_deref | ].
  intros this. apply fail_fast_remote_call.
Qed.

Lemma fail_fast_upload_fileobj self f dest_path filename :
  fail_fast W (upload_fileobj W self f dest_path filename).
Proof.
  apply fail_fast_bind; [ apply fail_fast_deref | ].
  intros this. apply fail_fast_remote_call.
Qed.

Lemma fail_fast_open name mode : fail_fast W (open W name mode).
Proof.
  unfold open. destruct (w_open W name) as [ e | ].
  - by apply fail_fast_silent.
  - by apply (fail_fast_local _ (Open {| f_name := name; f_mode := mode |})).
Qed.

(** Closing the file after the body adds one local event. *)
Lemma fail_fast_try_finally_close {A} (body : M A) f :
  fail_fast W body → fail_fast W (try_finally body (close f)).
Proof.
  intros Hbody st out st' Hrun. unfold try_finally, close in Hrun.
  destruct (body st) as [r st1] eqn:Hb. injection Hrun as <- <-.
  destruct (Hbody _ _ _ Hb) as (new & Ht & Hf).
  exists (new ++ [Close f]). split; [ simpl; by rewrite Ht, app_assoc | ].
  intros t c rest e Heq Hc Hfault.
  apply app_eq_inv in Heq as [ (k' & Hn1 & Hrest) | (k' & -> & Hn2) ].
  - destruct k' as [ | c' k' ].
    + simpl in Hrest. injection Hrest as -> ->. discriminate.
    + simpl in Hrest. injection Hrest as <- ->.
      destruct (Hf t c k' e Hn1 Hc Hfault) as [Hrest Hout].
      split; [ | done ]. by rewrite List.filter_app, Hrest.
  - destruct k' as [ | y [ | z k' ] ]; try discriminate.
    injection Hn2 as <- <-. discriminate.
Qed.

Lemma fail_fast_upload_file self file_path dest_path filename :
  fail_fast W (upload_file W self file_path dest_path filename).
Proof.
  apply fail_fast_bind; [ apply fail_fast_open | ].
  intros file. apply fail_fast_try_finally_close, fail_fast_upload_fileobj.
Qed.

Lemma fail_fast_os_listdir path : fail_fast W (os_listdir W path).
Proof.
  apply fail_fast_bind; [ by apply (fail_fast_local _ (Listdir path)) | ].
  intros _. destruct (w_listdir W path); by apply fail_fast_silent.
Qed.

Lemma fail_fast_os_path_isdir path : fail_fast W (os_path_isdir W path).
Proof. by apply (fail_fast_local _ (Isdir path)). Qed.

Lemma fail_fast_os_path_isfile path : fail_fast W (os_path_isfile W path).
Proof. by apply (fail_fast_local _ (Isfile path)). Qed.

Lemma fail_fast_copy_from fuel : ∀ local_path agave remote_path,
  fail_fast W (copy_from W fuel local_path agave remote_path).
Proof.
  induction fuel as [ | fuel IH ]; intros local_path agave remote_path.
  - by apply fail_fast_silent.
  - cbn [copy_from].
    apply fail_fast_bind; [ apply fail_fast_make_directory | intros _ ].
    apply fail_fast_bind; [ apply fail_fast_os_listdir | intros files ].
    apply fail_fast_for_each. intros file.
    apply fail_fast_bind; [ apply fail_fast_os_path_isdir | ].
    intros [ | ]; [ apply IH | ].
    apply fail_fast_bind; [ apply fail_fast_os_path_isfile | ].
    intros [ | ]; [ apply fail_fast_upload_file | by apply fail_fast_silent ].
Qed.

End FailFast.

Lemma fail_fast_grows W {A} (m : M A) st :
  fail_fast W m → trace st `prefix_of` trace (m st).2.
Proof.
  intros Hm. destruct (m st) as [out st'] eqn:Hrun.
  destruct (Hm _ _ _ Hrun) as (new & Hnew & _). simpl. rewrite Hnew. by exists new.
Qed.

Lemma fail_fast_iteration W agave fuel local_path remote_path file :
  fail_fast W (iteration W agave fuel local_path remote_path file).
Proof.
  apply fail_fast_bind; [ apply fail_fast_os_path_isdir | ].
  intros [ | ]; [ apply fail_fast_copy_from | ].
  apply fail_fast_bind; [ apply fail_fast_os_path_isfile | ].
  intros [ | ]; [ apply fail_fast_upload_file | by apply fail_fast_silent ].
Qed.

Section CutShort.

Context (W : World).

Lemma cut_short_bind {A B} (m m0 : M A) (k k0 : A → M B) st :
  cut_short (m st) (m0 st) →
  (∀ a st1, cut_short (k a st1) (k0 a st1)) →
  (∀ a, fail_fast (without_faults W) (k0 a)) →
  cut_short (bind m k st) (bind m0 k0 st).
Proof.
  intros Hm Hk Hgrow. unfold bind.
  destruct Hm as [ -> | (e & Hout & Hpre) ].
  - destruct (m0 st) as [[ a | e | ] s]; [ apply Hk | by left.. ].
  - destruct (m st) as [o s], (m0 st) as [o0 s0]. simpl in Hout, Hpre. subst o.
    right. exists e. split; [ reflexivity | ].
    destruct o0 as [ a | e0 | ]; simpl; [ | done.. ].
    etrans; [ exact Hpre | ]. apply (fail_fast_grows (without_faults W)), Hgrow.
Qed.

Lemma cut_short_remote_call ev st :
  cut_short (remote_call W ev st) (remote_call (without_faults W) ev st).
Proof.
  unfold remote_call. simpl. destruct (w_fault W (trace st) ev) as [ x | ].
  - right. by exists x.
  - by left.
Qed.

Lemma cut_short_make_directory self path st :
  cut_short (make_directory W self path st)
            (make_directory (without_faults W) self path st).
Proof.
  apply cut_short_bind.
  - by left.
  - intros this st1. apply cut_short_remote_call.
  - intros this. apply fail_fast_remote_call.
Qed.

(** A refused upload leaves the same state as an accepted one: the file is
    closed either way. *)
Lemma cut_short_upload_file self file_path dest_path filename st :
  cut_short (upload_file W self file_path dest_path filename st)
            (upload_file (without_faults W) self file_path dest_path filename st).
Proof.
  unfold upload_file, with_open, bind, open, try_finally, upload_fileobj, bind,
    deref, remote_call, close. simpl.
  destruct (w_open W file_path) as [ x | ]; [ by left | ]. simpl.
  destruct (heap st !! self) as [ this | ]; [ | by left ].
  destruct (w_fault W _ _) as [ x | ]; [ | by left ].
  right. by exists x.
Qed.

Lemma cut_short_for_each {A} (l : list A) (body body0 : A → M unit) :
  (∀ x st, cut_short (body x st) (body0 x st)) →
  (∀ x, fail_fast (without_faults W) (body0 x)) →
  ∀ st, cut_short (for_each l body st) (for_each l body0 st).
Proof.
  intros Hbody Hgrow. induction l as [ | x l IH ]; intros st; [ by left | ].
  apply cut_short_bind; [ apply Hbody | intros _; apply IH | ].
  intros _. by apply fail_fast_for_each.
Qed.

(** With a service that refuses calls, a run is the run with a service
    that accepts them all, cut short. *)
Lemma cut_short_copy_from fuel : ∀ local_path agave remote_path st,
  cut_short (copy_from W fuel local_path agave remote_path st)
            (copy_from (without_faults W) fuel local_path agave remote_path st).
Proof.
  induction fuel as [ | fuel IH ]; intros local_path agave remote_path st;
    [ by left | ].
  rewrite !copy_from_unfold.
  apply cut_short_bind; [ apply cut_short_make_directory | | ].
  - intros _ st1. apply cut_short_bind; [ by left | | ].
    + intros files st2. apply cut_short_for_each.
      * intros file st3. apply cut_short_bind; [ by left | | ].
        -- intros [ | ] st4; [ apply IH | ].
           apply cut_short_bind; [ by left | | ].
           ++ intros [ | ] st5; [ apply cut_short_upload_file | by left ].
           ++ intros [ | ]; [ apply fail_fast_upload_file | by apply fail_fast_silent ].
        -- intros [ | ]; [ apply fail_fast_copy_from | ].
           apply fail_fast_bind; [ apply fail_fast_os_path_isfile | ].
           intros [ | ]; [ apply fail_fast_upload_file | by apply fail_fast_silent ].
      * intros file. apply fail_fast_iteration.
    + intros files. apply fail_fast_for_each. intros file. apply fail_fast_iteration.
  - intros _. apply fail_fast_bind; [ apply fail_fast_os_listdir | ].
    intros files. apply fail_fast_for_each. intros file. apply fail_fast_iteration.
Qed.

End CutShort.

(** C4. When the service refuses a remote call of [copy_from], no remote
    call follows the refused one, the exception of the service is the
    outcome of the whole [copy_from], and the run is an initial part of
    the run that a service accepting every call would see: nothing is
    added to undo what was done. *)
Theorem copy_from_stops_at_a_refused_call
  W fuel local agave remote st out st' t c rest e :
  copy_from W fuel local agave remote st = (out, st') →
  trace st' = trace st ++ t ++ c :: rest →
  is_remote c = true →
  w_fault W (trace st ++ t) c = Some e →
  List.filter is_remote rest = [] ∧
  out = Raised e ∧
  trace st' `prefix_of`
    trace (copy_from (without_faults W) fuel local agave remote st).2.
Proof.
  intros Hrun Htrace Hc Hfault.
  destruct (fail_fast_copy_from W fuel local agave remote _ _ _ Hrun)
    as (new & Hnew & Hstop).
  rewrite Hnew in Htrace. apply (inj (app (trace st))) in Htrace.
  destruct (Hstop t c rest e Htrace Hc Hfault) as [Hrest Hout].
  split; [ exact Hrest | ]. split; [ exact Hout | ].
  destruct (cut_short_copy_from W fuel local agave remote st)
    as [ Heq | (e' & _ & Hpre) ].
  - by rewrite <- Heq, Hrun.
  - by rewrite Hrun in Hpre.
Qed.

Lemma copy_from_stops_at_a_refused_call_witness :
  let W := refusing upload_of_a_txt (fs_world (cwd_with proj) ∅) in
  List.filter is_remote [Close {| f_name := "proj/a.txt"; f_mode := "rb" |}] = [] ∧
  (copy_from W 2 "proj" 0 "proj" ready).1 = Raised (AgaveError "refused") ∧
  trace (copy_from W 2 "proj" 0 "proj" ready).2 `prefix_of`
    trace (copy_from (without_faults W) 2 "proj" 0 "proj" ready).2.
Proof.
  intros W.
  apply (copy_from_stops_at_a_refused_call W 2 "proj" 0 "proj" ready
           (copy_from W 2 "proj" 0 "proj" ready).1
           (copy_from W 2 "proj" 0 "proj" ready).2
           [mkdir_call biofab "proj"; Listdir "proj"; Isdir "proj/a.txt";
            Isfile "proj/a.txt"; Open {| f_name := "proj/a.txt"; f_mode := "rb" |}]
           upload_of_a_txt
           [Close {| f_name := "proj/a.txt"; f_mode := "rb" |}]
           (AgaveError "refused")).
  - apply surjective_pairing.
  - reflexivity.
  - reflexivity.
  - reflexivity.
Defined.

(** ** The destination of an upload *)

(** C5. A regular file found under the copied directory through the
    directories [dirs] and under the name [name] is uploaded to the root
    path of the adapter joined with the remote path, to which the names of
    [dirs] are joined one after the other, under its own name.  With a
    root path and a remote path that are not empty and do not end with a
    separator, and a remote path that is relative, this destination is
    [rootpath/remote/dirs.../name], at any depth. *)
Theorem copy_from_mirrors_the_local_path
  W agave this n fuel local remote st dirs name :
  observes W local n → classify n = KDir → reliable W →
  heap st !! agave = Some this → (followed_depth n ≤ fuel)%nat →
  resolve (dirs ++ [name]) n = Some RegularFile →
  ∃ new,
    copy_from W fuel local agave remote st = (Returned tt, extend st new) ∧
    ImportData (_system_id this)
               (posixpath.join (_rootpath this)
                               (foldl posixpath.join remote dirs))
               {| f_name := foldl posixpath.join local (dirs ++ [name]);
                  f_mode := "rb" |}
               name ∈ new ∧
    (well_formed n → proper (_rootpath this) → proper remote →
     posixpath.startswith_sep remote = false →
     posixpath.join (posixpath.join (_rootpath this)
                                    (foldl posixpath.join remote dirs)) name
     = posixpath.sep_join (_rootpath this :: remote :: dirs ++ [name])).
Proof.
  intros Hobs Hdir Hrel Hself Hfuel Hres.
  exists (events_of this local remote n).
  split; [ by apply complete_run | ]. split.
  - destruct (resolve_file_entry dirs n local remote name Hres)
      as (e & He & Hk & Hlocal & Hparent & Hname).
    assert (Hin : upload_call this (e_local e) (e_parent e) (e_name e) ∈
              List.filter is_upload (events_of this local remote n)).
    { rewrite (complete_uploads this n local remote Hdir).
      apply elem_of_list_map. exists e. split; [ reflexivity | ].
      apply elem_of_list_filter_bool. split; [ done | by apply is_kind_true ]. }
    apply elem_of_list_filter_bool in Hin as [Hin _].
    unfold upload_call in Hin. by rewrite Hlocal, Hparent, Hname in Hin.
  - intros Hwf Hroot Hremote Hrelative.
    apply destination_sep_join; try done.
    by apply (resolve_valid_names _ n RegularFile).
Qed.

Lemma copy_from_mirrors_the_local_path_witness :
  ∃ new,
    copy_from (fs_world (cwd_with nested) ∅) 3 "proj" 0 "proj" ready =
      (Returned tt, extend ready new) ∧
    ImportData (_system_id biofab)
               (posixpath.join (_rootpath biofab)
                               (foldl posixpath.join "proj" ["A"; "B"]))
               {| f_name := foldl posixpath.join "proj" (["A"; "B"] ++ ["c.txt"]);
                  f_mode := "rb" |}
               "c.txt" ∈ new ∧
    (well_formed nested → proper (_rootpath biofab) → proper "proj" →
     posixpath.startswith_sep "proj" = false →
     posixpath.join (posixpath.join (_rootpath biofab)
                                    (foldl posixpath.join "proj" ["A"; "B"]))
                    "c.txt"
     = posixpath.sep_join (_rootpath biofab :: "proj" :: ["A"; "B"] ++ ["c.txt"])).
Proof.
  apply (copy_from_mirrors_the_local_path
           (fs_world (cwd_with nested) ∅) 0 biofab nested 3 "proj" "proj" ready
           ["A"; "B"] "c.txt").
  - observe_concrete.
  - reflexivity.
  - intros t e. reflexivity.
  - reflexivity.
  - vm_compute. lia.
  - reflexivity.
Defined.

Example nested_destination :
  posixpath.sep_join (_rootpath biofab :: "proj" :: ["A"; "B"] ++ ["c.txt"])
  = "/sample/biofab/proj/A/B/c.txt".
Proof. reflexivity. Qed.

(** An absolute remote path makes [os.path.join] drop the root path. *)
Example absolute_remote_path :
  posixpath.join (_rootpath biofab) (foldl posixpath.join "/proj" ["A"; "B"])
  = "/proj/A/B".
Proof. reflexivity. Qed.

(** ** Construction of the adapter *)

(** [main] up to the construction of the adapter: the login name is
    looked up, the operator is asked for the password, then the adapter is
    built. *)
Lemma main_unfold W fuel directory st user pass :
  logged_in W user pass →
  main W fuel directory st =
  (agave <- AgaveWrapper_init W (main_params user pass) ;;
   copy_from W fuel (posixpath.normpath directory) agave
             (posixpath.basename (posixpath.normpath directory)))%py
    (extend st [Getpass]).
Proof.
  intros [Huser Hpass]. unfold main, getpass_getuser, getpass_getpass.
  by rewrite Huser, Hpass.
Qed.

(** Without a login name [main] stops before the prompt, and without a
    password right after it. *)
Lemma main_without_login W fuel directory st e :
  w_user W = inl e → main W fuel directory st = (Raised e, st).
Proof.
  intros Huser. unfold main, getpass_getuser. by rewrite Huser.
Qed.

Lemma main_without_password W fuel directory st user e :
  w_user W = inr user → w_password W = inl e →
  main W fuel directory st = (Raised e, extend st [Getpass]).
Proof.
  intros Huser Hpass. unfold main, getpass_getuser, getpass_getpass.
  by rewrite Huser, Hpass.
Qed.

Lemma main_params_required user pass p :
  p ∈ required_params → is_Some (main_params user pass !! p).
Proof.
  intros Hp. unfold required_params in Hp. unfold main_params.
  repeat (apply elem_of_cons in Hp as [ -> | Hp ]; [ by simplify_map_eq | ]).
  by apply not_elem_of_nil in Hp.
Qed.

(** When a required variable is missing, the construction raises
    [KeyError] and leaves the state as it was. *)
Lemma AgaveWrapper_init_missing W params st :
  (∃ k, k ∈ required_environment ∧ w_environ W !! k = None) →
  ∃ k, AgaveWrapper_init W params st = (Raised (KeyError k), st) ∧
       ((∀ p, p ∈ required_params → is_Some (params !! p)) →
        k ∈ required_environment ∧ w_environ W !! k = None).
Proof.
  intros (k & Hk & Hnone).
  unfold AgaveWrapper_init, os_environ_getitem, getitem, bind, raise, ret.
  assert (Hp : ∀ p, p ∈ required_params → params !! p = None →
             ¬ (∀ p, p ∈ required_params → is_Some (params !! p))).
  { intros p Hin Hp Hall. destruct (Hall p Hin) as [v Hv]. congruence. }
  unfold required_params in Hp.
  destruct (params !! "rootpath") eqn:H1;
    [ | eexists; split; [ reflexivity | intros Hall; exfalso;
        eapply Hp; [ | exact H1 | exact Hall ]; in_list ] ].
  destruct (params !! "system_id") eqn:H2;
    [ | eexists; split; [ reflexivity | intros Hall; exfalso;
        eapply Hp; [ | exact H2 | exact Hall ]; in_list ] ].
  destruct (w_environ W !! "AGAVE_SERVER") eqn:E1;
    [ | eexists; split; [ reflexivity | intros _; split; [ in_list | done ] ] ].
  destruct (params !! "username") eqn:H3;
    [ | eexists; split; [ reflexivity | intros Hall; exfalso;
        eapply Hp; [ | exact H3 | exact Hall ]; in_list ] ].
  destruct (params !! "password") eqn:H4;
    [ | eexists; split; [ reflexivity | intros Hall; exfalso;
        eapply Hp; [ | exact H4 | exact Hall ]; in_list ] ].
  destruct (w_environ W !! "AGAVE_CLIENT") eqn:E2;
    [ | eexists; split; [ reflexivity | intros _; split; [ in_list | done ] ] ].
  destruct (w_environ W !! "AGAVE_API_KEY") eqn:E3;
    [ | eexists; split; [ reflexivity | intros _; split; [ in_list | done ] ] ].
  destruct (w_environ W !! "AGAVE_API_SECRET") eqn:E4;
    [ | eexists; split; [ reflexivity | intros _; split; [ in_list | done ] ] ].
  exfalso. unfold required_environment in Hk.
  repeat (apply elem_of_cons in Hk as [ -> | Hk ]; [ congruence | ]).
  by apply not_elem_of_nil in Hk.
Qed.

(** C6. When one of the four environment variables is missing, building
    the adapter raises [KeyError] at once: no event has happened, no
    adapter exists.  So [main] ends with an error before any traversal and
    without any remote call, whatever else happens; when the login name is
    found and a password is typed, it ends with that [KeyError] right
    after the password prompt. *)
Theorem missing_environment_fails_at_construction
  W fuel directory params st :
  (∃ k, k ∈ required_environment ∧ w_environ W !! k = None) →
  (∃ k, AgaveWrapper_init W params st = (Raised (KeyError k), st) ∧
        ((∀ p, p ∈ required_params → is_Some (params !! p)) →
         k ∈ required_environment ∧ w_environ W !! k = None)) ∧
  (∃ e new,
     main W fuel directory st = (Raised e, extend st new) ∧
     List.filter is_remote new = [] ∧
     (∀ user pass, logged_in W user pass →
        new = [Getpass] ∧
        ∃ k, k ∈ required_environment ∧ w_environ W !! k = None ∧
             e = KeyError k)).
Proof.
  intros Hmissing. split; [ by apply AgaveWrapper_init_missing | ].
  destruct (w_user W) as [ e | user ] eqn:Huser.
  { exists e, []. rewrite (main_without_login W fuel directory st e Huser).
    split; [ by rewrite extend_nil | ]. split; [ reflexivity | ].
    intros user pass [Hu _]. congruence. }
  destruct (w_password W) as [ e | pass ] eqn:Hpass.
  { exists e, [Getpass].
    rewrite (main_without_password W fuel directory st user e Huser Hpass).
    split; [ reflexivity | ]. split; [ reflexivity | ].
    intros user' pass' [_ Hp]. congruence. }
  rewrite (main_unfold W fuel directory st user pass) by done.
  destruct (AgaveWrapper_init_missing W (main_params user pass)
              (extend st [Getpass]) Hmissing) as (k & Hrun & Hk).
  destruct Hk as [Hk Hnone]; [ apply main_params_required | ].
  exists (KeyError k), [Getpass]. unfold bind. rewrite Hrun.
  split; [ reflexivity | ]. split; [ reflexivity | ].
  intros _ _ _. split; [ reflexivity | ]. by exists k.
Qed.

Lemma missing_environment_fails_at_construction_witness :
  let W := fs_world (cwd_with proj) (<["AGAVE_SERVER" := "api.sd2e.org"]> ∅) in
  (∃ k, AgaveWrapper_init W (main_params "operator" "secret") initial_state
          = (Raised (KeyError k), initial_state) ∧
        ((∀ p, p ∈ required_params →
               is_Some (main_params "operator" "secret" !! p)) →
         k ∈ required_environment ∧ w_environ W !! k = None)) ∧
  (∃ e new,
     main W 2 "proj" initial_state = (Raised e, extend initial_state new) ∧
     List.filter is_remote new = [] ∧
     (∀ user pass, logged_in W user pass →
        new = [Getpass] ∧
        ∃ k, k ∈ required_environment ∧ w_environ W !! k = None ∧
             e = KeyError k)).
Proof.
  intros W.
  apply (missing_environment_fails_at_construction W 2 "proj"
           (main_params "operator" "secret") initial_state).
  exists "AGAVE_API_KEY". split; [ find_in_list | reflexivity ].
Defined.

Example main_without_client :
  main (fs_world (cwd_with proj) (<["AGAVE_SERVER" := "api.sd2e.org"]> ∅))
       2 "proj" initial_state =
  (Raised (KeyError "AGAVE_CLIENT"), extend initial_state [Getpass]).
Proof. reflexivity. Qed.

(** ** The adapter *)

Lemma upload_fileobj_open_files W self f dest_path filename st :
  open_files (upload_fileobj W self f dest_path filename st).2 = open_files st.
Proof.
  unfold upload_fileobj, bind, deref, remote_call.
  destruct (heap st !! self); [ | done ].
  by destruct (w_fault W _ _).
Qed.

(** C7. [upload_file] opens the file for binary read, hands the file
    object with the same destination and name to [upload_fileobj], and
    closes it afterwards whatever the outcome of the upload, which is then
    the outcome of [upload_file]: the open files are the same after the
    call as before.  When the file does not open, nothing is delegated. *)
Theorem upload_file_opens_delegates_and_closes
  W self file_path dest_path filename st :
  let f := {| f_name := file_path; f_mode := "rb" |} in
  open_files (upload_file W self file_path dest_path filename st).2
    = open_files st ∧
  match w_open W file_path with
  | Some e =>
      upload_file W self file_path dest_path filename st = (Raised e, st)
  | None =>
      let body := upload_fileobj W self f dest_path filename (opened f st) in
      upload_file W self file_path dest_path filename st
        = (body.1, closed f body.2) ∧
      open_files (closed f body.2) = open_files st ∧
      ∃ new, trace (closed f body.2) = trace st ++ Open f :: new ++ [Close f]
  end.
Proof.
  intros f.
  assert (Hrun : match w_open W file_path with
    | Some e =>
        upload_file W self file_path dest_path filename st = (Raised e, st)
    | None =>
        upload_file W self file_path dest_path filename st
        = ((upload_fileobj W self f dest_path filename (opened f st)).1,
           closed f (upload_fileobj W self f dest_path filename (opened f st)).2)
    end).
  { unfold upload_file, with_open, open.
    destruct (w_open W file_path); [ reflexivity | ].
    unfold bind at 1, try_finally, close. fold f. fold (opened f st).
    by destruct (upload_fileobj W self f dest_path filename (opened f st)). }
  assert (Hfiles : open_files
            (closed f (upload_fileobj W self f dest_path filename (opened f st)).2)
          = open_files st).
  { unfold closed. cbn [open_files]. rewrite upload_fileobj_open_files.
    apply remove_file_head. }
  destruct (w_open W file_path) as [ e | ].
  - rewrite Hrun. done.
  - cbn zeta. rewrite Hrun. split; [ exact Hfiles | ].
    split; [ reflexivity | ]. split; [ exact Hfiles | ].
    destruct (fail_fast_upload_fileobj W self f dest_path filename
                (opened f st) _ _ (surjective_pairing _)) as (new & Hnew & _).
    exists new. unfold closed. cbn [trace]. rewrite Hnew. simpl.
    by rewrite <- !app_assoc.
Qed.

(** A refused upload: the exception goes through, the file is closed. *)
Example upload_file_refused :
  upload_file (refusing upload_of_a_txt (fs_world (cwd_with proj) ∅)) 0
              "proj/a.txt" "proj" "a.txt" ready =
  (Raised (AgaveError "refused"),
   extend ready [Open {| f_name := "proj/a.txt"; f_mode := "rb" |};
                 upload_of_a_txt;
                 Close {| f_name := "proj/a.txt"; f_mode := "rb" |}]).
Proof. reflexivity. Qed.

Lemma perform_heap W self c st : heap (perform W self c st).2 = heap st.
Proof.
  destruct c as [ path | file_path dest_path filename | f dest_path filename ];
    unfold perform, make_directory, upload_file, with_open, open, try_finally,
      upload_fileobj, bind, deref, remote_call, close.
  - destruct (heap st !! self); [ | done ]. by destruct (w_fault W _ _).
  - destruct (w_open W file_path); [ done | ]. simpl.
    destruct (heap st !! self); [ | done ]. by destruct (w_fault W _ _).
  - destruct (heap st !! self); [ | done ]. by destruct (w_fault W _ _).
Qed.

(** C8. No operation of the adapter changes an adapter object: after any
    sequence of [make_directory], [upload_file] and [upload_fileobj] calls
    the heap, hence the root path, the system identifier and the session
    handle of every adapter, is what it was. *)
Theorem adapter_is_never_mutated W self calls st :
  heap (perform_all W self calls st) = heap st ∧
  ∀ r, _rootpath <$> heap (perform_all W self calls st) !! r
         = _rootpath <$> heap st !! r ∧
       _system_id <$> heap (perform_all W self calls st) !! r
         = _system_id <$> heap st !! r ∧
       _agave <$> heap (perform_all W self calls st) !! r
         = _agave <$> heap st !! r.
Proof.
  assert (Hheap : heap (perform_all W self calls st) = heap st).
  { revert st. induction calls as [ | c calls IH ]; intros st; [ reflexivity | ].
    cbn [perform_all]. by rewrite IH, perform_heap. }
  split; [ exact Hheap | ]. intros r. by rewrite Hheap.
Qed.

(** [copy_from] leaves the adapter as it is, too. *)
Lemma copy_from_heap W fuel : ∀ local_path agave remote_path st,
  heap (copy_from W fuel local_path agave remote_path st).2 = heap st.
Proof.
  induction fuel as [ | fuel IH ]; intros local_path agave remote_path st;
    [ reflexivity | ].
  rewrite copy_from_unfold. unfold bind at 1.
  pose proof (perform_heap W agave (Call_make_directory remote_path) st) as Hmk.
  cbn [perform] in Hmk.
  destruct (make_directory W agave remote_path st) as [[ [] | e | ] st1];
    simpl in Hmk; [ | done | done ].
  rewrite <- Hmk. unfold bind, os_listdir, bind, emit.
  destruct (w_listdir W local_path) as [ e | files ]; [ done | ].
  unfold ret. change (heap st1) with (heap (log (Listdir local_path) st1)).
  generalize (log (Listdir local_path) st1). clear Hmk.
  induction files as [ | file files IHf ]; intros s; [ reflexivity | ].
  rewrite for_each_cons.
  assert (Hit : heap (iteration W agave fuel local_path remote_path file s).2
                = heap s).
  { unfold iteration, bind at 1, os_path_isdir, bind, emit, ret.
    destruct (w_isdir W _); [ by rewrite IH | ].
    unfold bind, os_path_isfile, bind, emit, ret.
    destruct (w_isfile W _); [ | done ].
    exact (perform_heap W agave (Call_upload_file _ _ _) _). }
  destruct (iteration W agave fuel local_path remote_path file s)
    as [[ [] | e | ] s1]; simpl in Hit; [ | done | done ].
  by rewrite IHf.
Qed.

(** ** The directory is created before the local path is looked at *)

Lemma make_directory_step W agave this path st :
  heap st !! agave = Some this →
  make_directory W agave path st =
  (match w_fault W (trace st) (mkdir_call this path) with
   | Some x => Raised x
   | None => Returned tt
   end, extend st [mkdir_call this path]).
Proof.
  intros Hself. unfold make_directory, bind, deref, remote_call.
  rewrite Hself. fold (mkdir_call this path).
  by destruct (w_fault W (trace st) (mkdir_call this path)).
Qed.

Lemma copy_from_first_step W fuel local agave this remote st :
  heap st !! agave = Some this →
  copy_from W (S fuel) local agave remote st =
  match w_fault W (trace st) (mkdir_call this remote) with
  | Some x => (Raised x, extend st [mkdir_call this remote])
  | None =>
      (files <- os_listdir W local ;;
       for_each files (iteration W agave fuel local remote))%py
        (extend st [mkdir_call this remote])
  end.
Proof.
  intros Hself. rewrite copy_from_unfold.
  unfold bind at 1. rewrite (make_directory_step W agave this) by done.
  by destruct (w_fault W (trace st) (mkdir_call this remote)).
Qed.

(** C9. The first thing a run of [copy_from] does is the create-directory
    call for [remote_path]; in particular, when the local path cannot be
    listed, exactly one remote call has been issued, the create-directory
    call, and when the service accepted it the error of [os.listdir] is the
    outcome of the run. *)
Theorem copy_from_creates_before_listing
  W fuel local agave this remote st :
  heap st !! agave = Some this →
  (∃ rest, trace (copy_from W (S fuel) local agave remote st).2 =
           trace st ++ mkdir_call this remote :: rest) ∧
  (∀ err, w_listdir W local = inl err →
     ∃ out new,
       copy_from W (S fuel) local agave remote st = (out, extend st new) ∧
       List.filter is_remote new = [mkdir_call this remote] ∧
       (∃ e, out = Raised e) ∧
       (w_fault W (trace st) (mkdir_call this remote) = None →
        out = Raised err ∧ new = [mkdir_call this remote; Listdir local])).
Proof.
  intros Hself. rewrite (copy_from_first_step W fuel local agave this) by done.
  destruct (w_fault W (trace st) (mkdir_call this remote)) as [ x | ] eqn:Hfault.
  - split; [ by exists [] | ].
    intros err Herr. exists (Raised x), [mkdir_call this remote].
    split; [ reflexivity | ]. split; [ reflexivity | ].
    split; [ by exists x | done ].
  - split.
    + set (k := fun files => for_each files (iteration W agave fuel local remote)).
      destruct (fail_fast_bind W (os_listdir W local) k
                  (fail_fast_os_listdir W local)
                  (fun files => fail_fast_for_each W files _
                     (fail_fast_iteration W agave fuel local remote))
                  (extend st [mkdir_call this remote]) _ _
                  (surjective_pairing _)) as (new & Hnew & _).
      exists new. rewrite Hnew. simpl. by rewrite <- app_assoc.
    + intros err Herr. unfold bind, os_listdir, bind, emit. rewrite Herr.
      exists (Raised err), [mkdir_call this remote; Listdir local].
      rewrite log_extend, extend_app.
      split; [ reflexivity | ]. split; [ reflexivity | ].
      split; [ by exists err | done ].
Qed.

Lemma copy_from_creates_before_listing_witness :
  let W := fs_world (cwd_with proj) ∅ in
  (∃ rest, trace (copy_from W 1 "missing" 0 "missing" ready).2 =
           trace ready ++ mkdir_call biofab "missing" :: rest) ∧
  (∀ err, w_listdir W "missing" = inl err →
     ∃ out new,
       copy_from W 1 "missing" 0 "missing" ready = (out, extend ready new) ∧
       List.filter is_remote new = [mkdir_call biofab "missing"] ∧
       (∃ e, out = Raised e) ∧
       (w_fault W (trace ready) (mkdir_call biofab "missing") = None →
        out = Raised err ∧
        new = [mkdir_call biofab "missing"; Listdir "missing"])).
Proof.
  intros W.
  apply (copy_from_creates_before_listing W 0 "missing" 0 biofab "missing" ready).
  reflexivity.
Defined.

Example missing_directory_run :
  copy_from (fs_world (cwd_with proj) ∅) 1 "missing" 0 "missing" ready =
  (Raised (OSError "FileNotFoundError" "missing"),
   extend ready [mkdir_call biofab "missing"; Listdir "missing"]).
Proof. reflexivity. Qed.

(** ** Termination *)




Section Termination.

Context (W : World) (agave : ref).


End Termination.





(** The listings of the run on [proj/{a/{l -> ../big}, big/{c/{d/{}}}}]:
    the recursion is five directories deep. *)
Example detour_listings :
  List.filter is_listdir
    (trace (copy_from (fs_world (cwd_with detour) ∅) 5 "proj" 0 "proj" ready).2)
  = [ Listdir "proj"; Listdir "proj/a"; Listdir "proj/a/l";
      Listdir "proj/a/l/c"; Listdir "proj/a/l/c/d";
      Listdir "proj/big"; Listdir "proj/big/c"; Listdir "proj/big/c/d" ] ∧
  followed_depth detour = 5.
Proof. split; reflexivity. Qed.

(** Without enough fuel the recursion is cut: the bound is the depth. *)
Example proj_needs_its_depth :
  (copy_from (fs_world (cwd_with proj) ∅) 1 "proj" 0 "proj" ready).1 = OutOfFuel.
Proof. reflexivity. Qed.

(** * Further properties of the code *)

(** ** Construction of the adapter, continued *)

(** With every key present, the construction opens the session and, when
    the service accepts it, stores the adapter at a fresh reference. *)
Lemma AgaveWrapper_init_step W params st
    rootpath system_id user pass server client key secret :
  params !! "rootpath" = Some rootpath →
  params !! "system_id" = Some system_id →
  params !! "username" = Some user →
  params !! "password" = Some pass →
  configured W server client key secret →
  AgaveWrapper_init W params st =
  let session := session_of server user pass client key secret in
  match w_fault W (trace st) (Connect session) with
  | Some e => (Raised e, extend st [Connect session])
  | None =>
      (Returned (List.length (heap st)),
       {| trace := trace st ++ [Connect session];
          open_files := open_files st;
          heap := heap st ++ [{| _rootpath := rootpath;
                                 _system_id := system_id;
                                 _agave := session |}] |})
  end.
Proof.
  intros H1 H2 H3 H4 (E1 & E2 & E3 & E4).
  unfold AgaveWrapper_init, os_environ_getitem, getitem, bind at 1 2 3 4 5 6 7 8.
  rewrite H1, H2, H3, H4, E1, E2, E3, E4. unfold ret.
  unfold bind, Agave_new, bind, remote_call, alloc, ret, session_of.
  by destruct (w_fault W (trace st) _).
Qed.

Lemma main_params_lookup user pass :
  main_params user pass !! "rootpath" = Some "/sample/biofab" ∧
  main_params user pass !! "system_id" = Some "data-sd2e-community" ∧
  main_params user pass !! "username" = Some user ∧
  main_params user pass !! "password" = Some pass.
Proof. unfold main_params. repeat split; by simplify_map_eq. Qed.

Lemma lookup_fresh_ref (h : list AgaveWrapper) this :
  (h ++ [this]) !! List.length h = Some this.
Proof. induction h as [ | x h IH ]; [ reflexivity | exact IH ]. Qed.

Lemma lookup_old_ref (h : list AgaveWrapper) this r old :
  h !! r = Some old → (h ++ [this]) !! r = Some old.
Proof.
  revert r. induction h as [ | x h IH ]; intros [ | r ] Hr; try discriminate.
  - exact Hr.
  - simpl in *. by apply IH.
Qed.

(** X1. [AgaveWrapper.__init__] reads its keys in a fixed order, keyword
    arguments and environment variables interleaved; the first key that is
    missing gives the [KeyError] of the construction, which then leaves no
    event and no adapter.  When no key is missing the construction goes on
    to open the session. *)
Theorem AgaveWrapper_init_first_missing_key W params st :
  match first_missing W params with
  | Some k => AgaveWrapper_init W params st = (Raised (KeyError k), st)
  | None =>
      ∃ session, trace (AgaveWrapper_init W params st).2
                 = trace st ++ [Connect session]
  end.
Proof.
  unfold first_missing, init_reads, is_missing. cbn [List.filter fst snd].
  unfold AgaveWrapper_init, os_environ_getitem, getitem,
    bind at 1 2 3 4 5 6 7 8.
  destruct (params !! "rootpath"); [ | reflexivity ].
  destruct (params !! "system_id"); [ | reflexivity ].
  destruct (w_environ W !! "AGAVE_SERVER"); [ | reflexivity ].
  destruct (params !! "username"); [ | reflexivity ].
  destruct (params !! "password"); [ | reflexivity ].
  destruct (w_environ W !! "AGAVE_CLIENT"); [ | reflexivity ].
  destruct (w_environ W !! "AGAVE_API_KEY"); [ | reflexivity ].
  destruct (w_environ W !! "AGAVE_API_SECRET"); [ | reflexivity ].
  unfold ret, bind, Agave_new, bind, remote_call, alloc, ret.
  eexists. by destruct (w_fault W (trace st) _).
Qed.

(** The password is there, the user name is not: the user name is read
    first. *)
Example first_missing_username :
  first_missing (fs_world (cwd_with proj) full_environ)
    (<["rootpath" := "/r"]> (<["system_id" := "s"]> (<["password" := "p"]> ∅)))
  = Some "username".
Proof. reflexivity. Qed.

(** X2. An adapter built from keyword arguments carries them into its
    calls: after a successful construction the new reference is fresh, the
    adapters that existed stay where they were, [make_directory] on the
    new adapter sends the given system identifier and root path, and
    [upload_fileobj] sends the given system identifier and the root path
    joined with the destination. *)
Theorem AgaveWrapper_init_then_calls W params st
    rootpath system_id user pass server client key secret
    path f dest_path filename :
  params !! "rootpath" = Some rootpath →
  params !! "system_id" = Some system_id →
  params !! "username" = Some user →
  params !! "password" = Some pass →
  configured W server client key secret →
  reliable W →
  ∃ st1,
    AgaveWrapper_init W params st = (Returned (List.length (heap st)), st1) ∧
    heap st !! List.length (heap st) = None ∧
    (∀ r old, heap st !! r = Some old → heap st1 !! r = Some old) ∧
    trace st1 = trace st ++
      [Connect (session_of server user pass client key secret)] ∧
    make_directory W (List.length (heap st)) path st1 =
      (Returned tt, extend st1 [Manage system_id rootpath "mkdir" path]) ∧
    upload_fileobj W (List.length (heap st)) f dest_path filename st1 =
      (Returned tt,
       extend st1 [ImportData system_id (posixpath.join rootpath dest_path)
                              f filename]).
Proof.
  intros H1 H2 H3 H4 Henv Hrel.
  rewrite (AgaveWrapper_init_step W params st _ _ _ _ _ _ _ _ H1 H2 H3 H4 Henv).
  cbn zeta. rewrite Hrel. eexists. split; [ reflexivity | ].
  split; [ by apply lookup_ge_None_2 | ].
  split; [ intros r old Hr; by apply lookup_old_ref | ].
  split; [ reflexivity | ].
  unfold make_directory, upload_fileobj, bind, deref, remote_call.
  cbn [heap]. rewrite lookup_fresh_ref, !Hrel. split; reflexivity.
Qed.

Lemma AgaveWrapper_init_then_calls_witness :
  let W := fs_world (cwd_with proj) full_environ in
  let f := {| f_name := "proj/a.txt"; f_mode := "rb" |} in
  ∃ st1,
    AgaveWrapper_init W (main_params "operator" "secret") ready
      = (Returned (List.length (heap ready)), st1) ∧
    heap ready !! List.length (heap ready) = None ∧
    (∀ r old, heap ready !! r = Some old → heap st1 !! r = Some old) ∧
    trace st1 = trace ready ++
      [Connect (session_of "api.sd2e.org" "operator" "secret"
                           "client" "key" "secret")] ∧
    make_directory W (List.length (heap ready)) "proj" st1 =
      (Returned tt,
       extend st1 [Manage "data-sd2e-community" "/sample/biofab" "mkdir" "proj"]) ∧
    upload_fileobj W (List.length (heap ready)) f "proj" "a.txt" st1 =
      (Returned tt,
       extend st1 [ImportData "data-sd2e-community"
                              (posixpath.join "/sample/biofab" "proj")
                              f "a.txt"]).
Proof.
  intros W f.
  apply (AgaveWrapper_init_then_calls W (main_params "operator" "secret") ready
           "/sample/biofab" "data-sd2e-community" "operator" "secret"
           "api.sd2e.org" "client" "key" "secret" "proj" f "proj" "a.txt").
  - reflexivity.
  - reflexivity.
  - reflexivity.
  - reflexivity.
  - repeat split.
  - intros t e. reflexivity.
Defined.

(** ** The entry point *)

Lemma split_no_sep s :
  Forall (fun c => has_sep c = false) (posixpath.split s).
Proof.
  induction s as [ | c s IH ]; [ by repeat constructor | ].
  cbn [posixpath.split]. destruct (bool_decide (c = posixpath.sep)) eqn:Hc.
  - by constructor.
  - destruct (posixpath.split s) as [ | h t ]; [ constructor; [ | done ] | ].
    + simpl. by rewrite Hc.
    + apply Forall_cons in IH as [Hh Ht]. constructor; [ | done ].
      simpl. by rewrite Hc, Hh.
Qed.

Lemma last_Forall {A} (P : A → Prop) l d : Forall P l → P d → P (List.last l d).
Proof.
  intros Hl Hd. induction Hl as [ | x l Hx Hl IH ]; [ exact Hd | ].
  destruct l; [ exact Hx | exact IH ].
Qed.

(** A base name holds no separator. *)
Lemma basename_no_sep p : has_sep (posixpath.basename p) = false.
Proof.
  unfold posixpath.basename.
  apply (last_Forall (fun c => has_sep c = false));
    [ apply split_no_sep | reflexivity ].
Qed.

Lemma no_sep_relative s : has_sep s = false → posixpath.startswith_sep s = false.
Proof. destruct s as [ | c s ]; [ done | ]. simpl. by intros [? _]%orb_false_elim. Qed.

(** What [main] does up to the call of [copy_from], when the login name
    is found, a password is typed and the environment is complete. *)
Lemma main_step W fuel directory st user pass server client key secret :
  logged_in W user pass →
  configured W server client key secret →
  main W fuel directory st =
  let session := main_session user pass server client key secret in
  match w_fault W (trace st ++ [Getpass]) (Connect session) with
  | Some e => (Raised e, extend st [Getpass; Connect session])
  | None =>
      copy_from W fuel (posixpath.normpath directory)
        (List.length (heap st))
        (posixpath.basename (posixpath.normpath directory))
        {| trace := trace st ++ [Getpass; Connect session];
           open_files := open_files st;
           heap := heap st ++ [main_adapter user pass server client key secret] |}
  end.
Proof.
  intros Hlogin Henv.
  rewrite (main_unfold W fuel directory st user pass Hlogin). unfold bind.
  destruct (main_params_lookup user pass) as (H1 & H2 & H3 & H4).
  rewrite (AgaveWrapper_init_step W (main_params user pass) _ _ _ _ _ _ _ _ _
             H1 H2 H3 H4 Henv).
  cbn zeta. cbn [trace extend heap open_files].
  fold (main_session user pass server client key secret).
  destruct (w_fault W (trace st ++ [Getpass]) _).
  - unfold extend. cbn [trace open_files heap]. by rewrite <- app_assoc.
  - unfold main_adapter. by rewrite <- app_assoc.
Qed.

(** X3. When the login name is found, a password is typed at the prompt,
    the environment is complete and the service accepts every call,
    [main] asks for the password, opens the session with that login name
    and password, builds the adapter for [/sample/biofab] on
    [data-sd2e-community] and copies the normalised directory to the
    remote path that is its base name: the run returns, its events are the
    prompt, the session and the events of the copy, and the remote path
    holds no separator.  When [getpass.getuser()] finds no login name,
    [main] ends with its error and nothing has happened: no prompt, no
    session, no copy. *)
Theorem main_copies_the_directory
  W fuel directory st n server client key secret :
  configured W server client key secret →
  reliable W →
  observes W (posixpath.normpath directory) n →
  classify n = KDir →
  (followed_depth n ≤ fuel)%nat →
  let local_path := posixpath.normpath directory in
  let remote_path := posixpath.basename local_path in
  (∀ user pass, logged_in W user pass →
     let agave := main_adapter user pass server client key secret in
     main W fuel directory st =
     (Returned tt,
      {| trace := trace st ++ Getpass ::
                    Connect (main_session user pass server client key secret) ::
                    events_of agave local_path remote_path n;
         open_files := open_files st;
         heap := heap st ++ [agave] |})) ∧
  (∀ e, w_user W = inl e → main W fuel directory st = (Raised e, st)) ∧
  has_sep remote_path = false.
Proof.
  intros Henv Hrel Hobs Hdir Hfuel local_path remote_path.
  split; [ | split; [ intros e; apply main_without_login
                    | apply basename_no_sep ] ].
  intros user pass Hlogin agave.
  rewrite (main_step W fuel directory st _ _ _ _ _ _ Hlogin Henv). cbn zeta.
  rewrite Hrel.
  rewrite (copy_from_run W (List.length (heap st)) agave Hrel n); try done.
  - unfold extend. cbn [trace open_files heap]. by rewrite <- app_assoc.
  - apply lookup_fresh_ref.
Qed.

Lemma main_copies_the_directory_witness :
  let W := fs_world (cwd_with proj) full_environ in
  let local_path := posixpath.normpath "./proj/" in
  let remote_path := posixpath.basename local_path in
  (∀ user pass, logged_in W user pass →
     let agave := main_adapter user pass "api.sd2e.org" "client" "key" "secret" in
     main W 2 "./proj/" initial_state =
     (Returned tt,
      {| trace := trace initial_state ++ Getpass ::
                    Connect (main_session user pass
                               "api.sd2e.org" "client" "key" "secret") ::
                    events_of agave local_path remote_path proj;
         open_files := open_files initial_state;
         heap := heap initial_state ++ [agave] |})) ∧
  (∀ e, w_user W = inl e → main W 2 "./proj/" initial_state
                           = (Raised e, initial_state)) ∧
  has_sep remote_path = false.
Proof.
  intros W.
  apply (main_copies_the_directory W 2 "./proj/" initial_state proj
           "api.sd2e.org" "client" "key" "secret").
  - repeat split.
  - intros t e. reflexivity.
  - observe_concrete.
  - reflexivity.
  - vm_compute. lia.
Defined.

(** X4. When the service refuses the session that [main] asks for, with
    the login name found and the password typed, [main] ends with the
    exception of the service right after the attempt: no adapter exists,
    no directory was created and nothing was uploaded. *)
Theorem main_stops_at_a_refused_session
  W fuel directory st user pass server client key secret e :
  logged_in W user pass →
  configured W server client key secret →
  w_fault W (trace st ++ [Getpass])
            (Connect (main_session user pass server client key secret))
    = Some e →
  main W fuel directory st =
    (Raised e,
     extend st [Getpass;
                Connect (main_session user pass server client key secret)]) ∧
  heap (main W fuel directory st).2 = heap st ∧
  List.filter (fun ev => is_mkdir ev || is_upload ev)
    [Getpass; Connect (main_session user pass server client key secret)] = [].
Proof.
  intros Hlogin Henv Hfault.
  rewrite (main_step W fuel directory st _ _ _ _ _ _ Hlogin Henv). cbn zeta.
  rewrite Hfault. done.
Qed.

Lemma main_stops_at_a_refused_session_witness :
  let W0 := fs_world (cwd_with proj) full_environ in
  let session :=
    main_session "operator" "secret" "api.sd2e.org" "client" "key" "secret" in
  let W := refusing (Connect session) W0 in
  main W 2 "proj" initial_state =
    (Raised (AgaveError "refused"),
     extend initial_state [Getpass; Connect session]) ∧
  heap (main W 2 "proj" initial_state).2 = heap initial_state ∧
  List.filter (fun ev => is_mkdir ev || is_upload ev)
    [Getpass; Connect session] = [].
Proof.
  intros W0 session W.
  apply (main_stops_at_a_refused_session W 2 "proj" initial_state
           "operator" "secret"
           "api.sd2e.org" "client" "key" "secret" (AgaveError "refused")).
  - split; reflexivity.
  - repeat split.
  - reflexivity.
Defined.

(** ** No file is left open *)

Lemma steady_bind {A B} (m : M A) (k : A → M B) :
  steady m → (∀ a, steady (k a)) → steady (bind m k).
Proof.
  intros Hm Hk st. unfold bind. destruct (Hm st) as [Hf Hh].
  destruct (m st) as [[ a | e | ] st1]; simpl in *; [ | done | done ].
  destruct (Hk a st1) as [Hf' Hh']. split; congruence.
Qed.

Lemma steady_for_each {A} (l : list A) body :
  (∀ x, steady (body x)) → steady (for_each l body).
Proof.
  intros Hbody. induction l as [ | x l IH ]; [ done | ].
  apply steady_bind; [ apply Hbody | intros _; exact IH ].
Qed.

Lemma steady_make_directory W self path : steady (make_directory W self path).
Proof.
  intros st. unfold make_directory, bind, deref, remote_call.
  destruct (heap st !! self); [ | done ]. by destruct (w_fault W _ _).
Qed.

Lemma steady_upload_file W self file_path dest_path filename :
  steady (upload_file W self file_path dest_path filename).
Proof.
  intros st.
  unfold upload_file, with_open, open, try_finally, upload_fileobj, bind,
    deref, remote_call, close.
  destruct (w_open W file_path); [ done | ]. simpl.
  destruct (heap st !! self); [ | simpl; by rewrite decide_True ].
  destruct (w_fault W _ _); simpl; by rewrite decide_True.
Qed.

Lemma steady_os_listdir W path : steady (os_listdir W path).
Proof.
  intros st. unfold os_listdir, bind, emit. by destruct (w_listdir W path).
Qed.

Lemma steady_copy_from W fuel : ∀ local_path agave remote_path,
  steady (copy_from W fuel local_path agave remote_path).
Proof.
  induction fuel as [ | fuel IH ]; intros local_path agave remote_path; [ done | ].
  cbn [copy_from].
  apply steady_bind; [ apply steady_make_directory | intros _ ].
  apply steady_bind; [ apply steady_os_listdir | intros files ].
  apply steady_for_each. intros file.
  apply steady_bind; [ done | ].
  intros [ | ]; [ apply IH | ].
  apply steady_bind; [ done | ].
  intros [ | ]; [ apply steady_upload_file | done ].
Qed.

Lemma steady_iteration W agave fuel local_path remote_path file :
  steady (iteration W agave fuel local_path remote_path file).
Proof.
  apply steady_bind; [ done | ].
  intros [ | ]; [ apply steady_copy_from | ].
  apply steady_bind; [ done | ].
  intros [ | ]; [ apply steady_upload_file | done ].
Qed.

(** X5. Whatever the file system and the service do, and however the run
    ends, [copy_from] leaves no file open and leaves every adapter as it
    was: the open files and the heap after the run are those before it.
    [main] leaves no file open either. *)
Theorem copy_from_leaves_no_file_open
  W fuel local_path agave remote_path directory st :
  open_files (copy_from W fuel local_path agave remote_path st).2
    = open_files st ∧
  heap (copy_from W fuel local_path agave remote_path st).2 = heap st ∧
  open_files (main W fuel directory st).2 = open_files st.
Proof.
  destruct (steady_copy_from W fuel local_path agave remote_path st) as [Hf Hh].
  split; [ exact Hf | ]. split; [ exact Hh | ].
  destruct (w_user W) as [ e | user ] eqn:Huser.
  { by rewrite (main_without_login W fuel directory st e Huser). }
  destruct (w_password W) as [ e | pass ] eqn:Hpass.
  { by rewrite (main_without_password W fuel directory st user e Huser Hpass). }
  rewrite (main_unfold W fuel directory st user pass) by done. unfold bind.
  unfold AgaveWrapper_init, os_environ_getitem, getitem, bind at 1 2 3 4 5 6 7 8.
  destruct (main_params user pass !! "rootpath"); [ | done ].
  destruct (main_params user pass !! "system_id"); [ | done ].
  destruct (w_environ W !! "AGAVE_SERVER"); [ | done ].
  destruct (main_params user pass !! "username"); [ | done ].
  destruct (main_params user pass !! "password"); [ | done ].
  destruct (w_environ W !! "AGAVE_CLIENT"); [ | done ].
  destruct (w_environ W !! "AGAVE_API_KEY"); [ | done ].
  destruct (w_environ W !! "AGAVE_API_SECRET"); [ | done ].
  unfold ret, bind, Agave_new, bind, remote_call, alloc, ret.
  destruct (w_fault W _ _); [ done | ].
  exact (proj1 (steady_copy_from W fuel _ _ _ _)).
Qed.

(** ** Every call belongs to the adapter *)

Section Emits.

Context (W : World) (agave : ref) (this : AgaveWrapper) (P : event → Prop).

Lemma emits_bind {A B} (m : M A) (k : A → M B) :
  steady m → emits agave this P m → (∀ a, emits agave this P (k a)) →
  emits agave this P (bind m k).
Proof.
  intros Hs Hm Hk st Hself. unfold bind.
  destruct (Hm st Hself) as (new1 & Ht1 & Hp1).
  destruct (Hs st) as [_ Hh].
  destruct (m st) as [[ a | e | ] st1]; simpl in *; try by exists new1.
  destruct (Hk a st1) as (new2 & Ht2 & Hp2); [ by rewrite Hh | ].
  exists (new1 ++ new2). split; [ by rewrite Ht2, Ht1, app_assoc | ].
  by apply Forall_app.
Qed.

Lemma emits_for_each {A} (l : list A) body :
  (∀ x, steady (body x)) → (∀ x, emits agave this P (body x)) →
  emits agave this P (for_each l body).
Proof.
  intros Hs Hbody. induction l as [ | x l IH ].
  - intros st _. exists []. by rewrite app_nil_r.
  - apply emits_bind; [ apply Hs | apply Hbody | intros _; exact IH ].
Qed.

Lemma emits_one {A} (m : M A) ev :
  P ev → (∀ st, trace (m st).2 = trace st ++ [ev]) → emits agave this P m.
Proof. intros Hev Hm st _. exists [ev]. split; [ apply Hm | by constructor ]. Qed.

Lemma emits_none {A} (m : M A) :
  (∀ st, (m st).2 = st) → emits agave this P m.
Proof. intros Hm st _. exists []. rewrite Hm. by rewrite app_nil_r. Qed.

End Emits.

Lemma emits_make_directory W agave this path :
  emits agave this (allowed this) (make_directory W agave path).
Proof.
  intros st Hself. exists [mkdir_call this path].
  rewrite (make_directory_step W agave this) by done.
  split; [ reflexivity | ]. by repeat constructor.
Qed.

Lemma emits_upload_file W agave this file_path dest_path filename :
  emits agave this (allowed this)
        (upload_file W agave file_path dest_path filename).
Proof.
  intros st Hself.
  unfold upload_file, with_open, open, try_finally, upload_fileobj, bind,
    deref, remote_call, close.
  destruct (w_open W file_path).
  { exists []. by rewrite app_nil_r. }
  simpl. rewrite Hself.
  eexists [Open _; ImportData _ _ _ _; Close _].
  split; [ destruct (w_fault W _ _); simpl; by rewrite <- !app_assoc | ].
  by repeat constructor.
Qed.

Lemma emits_copy_from W agave this fuel : ∀ local_path remote_path,
  emits agave this (allowed this)
        (copy_from W fuel local_path agave remote_path).
Proof.
  induction fuel as [ | fuel IH ]; intros local_path remote_path.
  { by apply emits_none. }
  cbn [copy_from].
  apply emits_bind;
    [ apply steady_make_directory | apply emits_make_directory | intros _ ].
  apply emits_bind; [ apply steady_os_listdir | | intros files ].
  { intros st _. exists [Listdir local_path].
    unfold os_listdir, bind, emit.
    split; [ by destruct (w_listdir W local_path) | by repeat constructor ]. }
  apply emits_for_each.
  { intros file. exact (steady_iteration W agave fuel local_path remote_path file). }
  intros file.
  apply emits_bind;
    [ done
    | by apply (emits_one _ _ _ _ (Isdir (posixpath.join local_path file))) | ].
  intros [ | ]; [ apply IH | ].
  apply emits_bind;
    [ done
    | by apply (emits_one _ _ _ _ (Isfile (posixpath.join local_path file))) | ].
  intros [ | ]; [ apply emits_upload_file | by apply emits_none ].
Qed.

(** X6. Whatever the file system and the service do, every event of a run
    of [copy_from] belongs to the adapter it was given: each remote call
    is an [mkdir] with the adapter's system identifier and root path, or
    an upload with the adapter's system identifier of a file opened for
    binary read; the run opens no session and asks for no password. *)
Theorem copy_from_calls_belong_to_the_adapter
  W fuel local_path agave this remote_path st :
  heap st !! agave = Some this →
  ∃ new,
    trace (copy_from W fuel local_path agave remote_path st).2
      = trace st ++ new ∧
    Forall (allowed this) new.
Proof. apply emits_copy_from. Qed.

Lemma copy_from_calls_belong_to_the_adapter_witness :
  let W := refusing upload_of_a_txt (fs_world (cwd_with proj) ∅) in
  ∃ new,
    trace (copy_from W 2 "proj" 0 "proj" ready).2 = trace ready ++ new ∧
    Forall (allowed biofab) new.
Proof.
  intros W.
  apply (copy_from_calls_belong_to_the_adapter W 2 "proj" 0 biofab "proj" ready).
  reflexivity.
Defined.

(** ** Only the local directory is read *)

Lemma adds_bind P {A B} (m : M A) (k : A → M B) :
  adds P m → (∀ a, adds P (k a)) → adds P (bind m k).
Proof.
  intros Hm Hk st. unfold bind.
  destruct (Hm st) as (new1 & Ht1 & Hp1).
  destruct (m st) as [[ a | e | ] st1]; simpl in *; try by exists new1.
  destruct (Hk a st1) as (new2 & Ht2 & Hp2).
  exists (new1 ++ new2). split; [ by rewrite Ht2, Ht1, app_assoc | ].
  by apply Forall_app.
Qed.

Lemma adds_for_each P {A} (l : list A) body :
  Forall (fun x => adds P (body x)) l → adds P (for_each l body).
Proof.
  induction 1 as [ | x l Hx _ IH ].
  - intros st. exists []. by rewrite app_nil_r.
  - apply adds_bind; [ exact Hx | intros _; exact IH ].
Qed.

Lemma adds_weaken (P Q : event → Prop) {A} (m : M A) :
  (∀ ev, P ev → Q ev) → adds P m → adds Q m.
Proof.
  intros Himp Hm st. destruct (Hm st) as (new & Ht & Hp).
  exists new. split; [ exact Ht | ]. by eapply Forall_impl.
Qed.

Lemma adds_one P {A} (m : M A) ev :
  P ev → (∀ st, trace (m st).2 = trace st ++ [ev]) → adds P m.
Proof. intros Hev Hm st. exists [ev]. split; [ apply Hm | by constructor ]. Qed.

Lemma adds_none P {A} (m : M A) : (∀ st, (m st).2 = st) → adds P m.
Proof. intros Hm st. exists []. rewrite Hm. by rewrite app_nil_r. Qed.

Lemma under_child base name :
  valid_name name = true → under base (posixpath.join base name).
Proof. intros Hv. right. exists name. by apply join_valid. Qed.

Lemma under_join base name p :
  valid_name name = true → under (posixpath.join base name) p → under base p.
Proof.
  intros Hv [ -> | [rest ->] ]; [ by apply under_child | ].
  right. rewrite (with_sep_proper _ (join_proper base name Hv)).
  rewrite join_valid by done.
  exists (name +:+ "/" +:+ rest). by rewrite !string_app_assoc.
Qed.

Lemma touches_under_join base name ev :
  valid_name name = true →
  touches_under (posixpath.join base name) ev → touches_under base ev.
Proof. intros Hv. destruct ev; simpl; try done; by apply under_join. Qed.

Lemma adds_make_directory P W self path :
  (∀ s fp a p, P (Manage s fp a p)) → adds P (make_directory W self path).
Proof.
  intros HP st. unfold make_directory, bind, deref, remote_call.
  destruct (heap st !! self) as [ this | ].
  - eexists [_]. split; [ by destruct (w_fault W _ _) | ].
    constructor; [ apply HP | constructor ].
  - exists []. by rewrite app_nil_r.
Qed.

Lemma adds_upload_file W self base file_path dest_path filename :
  under base file_path →
  adds (touches_under base) (upload_file W self file_path dest_path filename).
Proof.
  intros Hu st.
  unfold upload_file, with_open, open, try_finally, upload_fileobj, bind,
    deref, remote_call, close.
  destruct (w_open W file_path).
  { exists []. by rewrite app_nil_r. }
  simpl. destruct (heap st !! self) as [ this | ].
  - eexists [Open _; ImportData _ _ _ _; Close _].
    split; [ destruct (w_fault W _ _); simpl; by rewrite <- !app_assoc | ].
    repeat (constructor; [ exact Hu | ]). constructor.
  - eexists [Open _; Close _].
    split; [ simpl; by rewrite <- !app_assoc | ].
    repeat (constructor; [ exact Hu | ]). constructor.
Qed.

Lemma adds_copy_from W agave fuel :
  lists_valid_names W →
  ∀ local_path remote_path,
    adds (touches_under local_path)
         (copy_from W fuel local_path agave remote_path).
Proof.
  intros Hnames.
  induction fuel as [ | fuel IH ]; intros local_path remote_path.
  { by apply adds_none. }
  rewrite copy_from_unfold.
  apply adds_bind; [ by apply adds_make_directory | intros _ ].
  intros st. unfold bind at 1, os_listdir, bind, emit.
  destruct (w_listdir W local_path) as [ e | files ] eqn:Hlist.
  { exists [Listdir local_path]. split; [ reflexivity | ].
    constructor; [ by left | constructor ]. }
  unfold ret.
  assert (Hloop : adds (touches_under local_path)
            (for_each files (iteration W agave fuel local_path remote_path))).
  { apply adds_for_each. apply Hnames in Hlist.
    eapply Forall_impl; [ exact Hlist | ]. intros file Hv. cbn beta.
    apply adds_bind.
    { apply (adds_one _ _ (Isdir (posixpath.join local_path file)));
        [ by apply under_child | done ]. }
    intros [ | ].
    { eapply adds_weaken; [ | apply IH ].
      intros ev. by apply touches_under_join. }
    apply adds_bind.
    { apply (adds_one _ _ (Isfile (posixpath.join local_path file)));
        [ by apply under_child | done ]. }
    intros [ | ]; [ | by apply adds_none ].
    by apply adds_upload_file, under_child. }
  destruct (Hloop (log (Listdir local_path) st)) as (new & Ht & Hp).
  exists (Listdir local_path :: new). split.
  - rewrite Ht. simpl. by rewrite <- app_assoc.
  - constructor; [ by left | exact Hp ].
Qed.

Lemma resolve_well_formed comps : ∀ n m,
  well_formed n → resolve comps n = Some m → well_formed m.
Proof.
  induction comps as [ | c comps IH ]; intros n m Hwf Hres; cbn [resolve] in Hres.
  - by apply (well_formed_stat n).
  - destruct (stat n) as [ [ | es | | ] | ] eqn:Hstat; try discriminate.
    destruct (lookup_entry c es) as [ child | ] eqn:Hl; [ | discriminate ].
    apply lookup_entry_elem_of in Hl.
    apply (well_formed_stat n _ Hstat) in Hwf.
    destruct (well_formed_entry es c child Hwf Hl) as [_ Hc].
    by apply (IH child).
Qed.

(** The file system of a well-formed tree lists valid names. *)
Lemma fs_world_lists_valid_names cwd environ :
  well_formed cwd → lists_valid_names (fs_world cwd environ).
Proof.
  intros Hwf p names. simpl. unfold fs_stat.
  destruct (posixpath.is_empty p || posixpath.startswith_sep p); [ done | ].
  destruct (resolve (path_components p) cwd) as [ [ | es | | ] | ] eqn:Hres;
    try done.
  intros [= <-]. apply (resolve_well_formed _ _ _ Hwf) in Hres.
  apply well_formed_entries in Hres as [_ Hes].
  apply Forall_forall. intros name Hin.
  apply elem_of_list_map in Hin as ([name' c] & <- & Hin).
  rewrite Forall_forall in Hes. by apply (Hes (name', c)).
Qed.

(** X7. When [os.listdir] returns names that are not empty and hold no
    separator, a run of [copy_from], however it ends, looks only at
    [local_path] and at paths that continue it after a separator: every
    path it lists, tests or opens, and every file it uploads, is under
    [local_path]. *)
Theorem copy_from_reads_only_the_local_directory
  W fuel local_path agave remote_path st :
  lists_valid_names W →
  ∃ new,
    trace (copy_from W fuel local_path agave remote_path st).2
      = trace st ++ new ∧
    Forall (touches_under local_path) new.
Proof. intros Hnames. by apply adds_copy_from. Qed.

Lemma copy_from_reads_only_the_local_directory_witness :
  let W := fs_world (cwd_with proj) ∅ in
  ∃ new,
    trace (copy_from W 2 "proj" 0 "proj" ready).2 = trace ready ++ new ∧
    Forall (touches_under "proj") new.
Proof.
  intros W.
  apply (copy_from_reads_only_the_local_directory W 2 "proj" 0 "proj" ready).
  apply fs_world_lists_valid_names.
  split; [ distinct_names | ].
  split; [ reflexivity | ]. split; [ apply proj_well_formed | exact I ].
Defined.

(** ** Destinations, level by level *)

Lemma with_sep_closed a :
  posixpath.is_empty (with_sep a) || posixpath.endswith_sep (with_sep a) = true.
Proof.
  unfold with_sep.
  destruct (posixpath.is_empty a || posixpath.endswith_sep a) eqn:Ha; [ exact Ha | ].
  rewrite endswith_sep_app by done. apply orb_true_r.
Qed.

Lemma with_sep_idemp a : with_sep (with_sep a) = with_sep a.
Proof. unfold with_sep at 1. by rewrite with_sep_closed. Qed.

Lemma with_sep_app x b :
  posixpath.is_empty b = false → with_sep (x +:+ b) = x +:+ with_sep b.
Proof.
  intros Hb. unfold with_sep.
  rewrite is_empty_app_r, endswith_sep_app, Hb by done. simpl.
  destruct (posixpath.endswith_sep b); [ done | by rewrite string_app_assoc ].
Qed.

Lemma join_empty_r a : posixpath.join a "" = with_sep a.
Proof.
  unfold posixpath.join, with_sep. simpl.
  destruct (posixpath.is_empty a || posixpath.endswith_sep a);
    [ apply string_app_nil_r | done ].
Qed.

Lemma join_absolute a b :
  posixpath.startswith_sep b = true → posixpath.join a b = b.
Proof. intros Hb. unfold posixpath.join. by rewrite Hb. Qed.

(** [os.path.join] is associative. *)
Lemma join_assoc a b c :
  posixpath.join a (posixpath.join b c)
  = posixpath.join (posixpath.join a b) c.
Proof.
  destruct (posixpath.startswith_sep c) eqn:Hc.
  { by rewrite !(join_absolute _ c). }
  rewrite (join_relative b c), (join_relative _ c) by done.
  destruct b as [ | x b ].
  { change (with_sep "" +:+ c) with c.
    by rewrite join_empty_r, with_sep_idemp, join_relative. }
  destruct (posixpath.startswith_sep (String x b)) eqn:Hb.
  - rewrite (join_absolute a (String x b)) by done.
    apply join_absolute.
    rewrite startswith_sep_app; [ | by destruct (with_sep (String x b)) eqn:E;
      [ unfold with_sep in E; destruct (_ || _); discriminate | ] ].
    unfold with_sep. destruct (_ || _); [ done | ].
    by rewrite startswith_sep_app.
  - rewrite (join_relative a (String x b)) by done.
    rewrite with_sep_app by done.
    rewrite join_relative; [ by rewrite string_app_assoc | ].
    rewrite startswith_sep_app;
      [ | unfold with_sep; destruct (_ || _); done ].
    unfold with_sep. destruct (_ || _); [ done | ].
    by rewrite startswith_sep_app.
Qed.

Lemma join_foldl a b names :
  posixpath.join a (foldl posixpath.join b names)
  = foldl posixpath.join (posixpath.join a b) names.
Proof.
  revert b. induction names as [ | x names IH ]; intros b; [ reflexivity | ].
  cbn [foldl]. by rewrite IH, join_assoc.
Qed.

(** X8. Re-rooting commutes with descending, for all paths and names:
    the destination that [upload_fileobj] sends for a remote path extended
    by names, one [os.path.join] after the other, is the destination of
    the remote path extended by the same names.  So a file is uploaded
    into the child, by name, of the place where files of the parent
    directory are uploaded. *)
Theorem upload_fileobj_destination_descends
  W self this f remote names filename st :
  heap st !! self = Some this →
  trace (upload_fileobj W self f (foldl posixpath.join remote names)
                        filename st).2
  = trace st ++
      [ImportData (_system_id this)
                  (foldl posixpath.join
                         (posixpath.join (_rootpath this) remote) names)
                  f filename].
Proof.
  intros Hself. unfold upload_fileobj, bind, deref, remote_call.
  rewrite Hself, join_foldl. by destruct (w_fault W _ _).
Qed.

Lemma upload_fileobj_destination_descends_witness :
  let f := {| f_name := "c.txt"; f_mode := "rb" |} in
  trace (upload_fileobj (fs_world (cwd_with nested) ∅) 0 f
           (foldl posixpath.join "/abs/" [""; "A"; "B/"]) "c.txt" ready).2
  = trace ready ++
      [ImportData (_system_id biofab)
                  (foldl posixpath.join
                         (posixpath.join (_rootpath biofab) "/abs/")
                         [""; "A"; "B/"])
                  f "c.txt"].
Proof.
  intros f.
  apply (upload_fileobj_destination_descends (fs_world (cwd_with nested) ∅)
           0 biofab f "/abs/" [""; "A"; "B/"] "c.txt" ready).
  reflexivity.
Defined.

(** ** Errors of the local file system *)

Section LocalErrors.

Context (W : World).

Lemma stops_bind {A B} (m : M A) (k : A → M B) :
  stops_at_local_errors W m → (∀ a, stops_at_local_errors W (k a)) →
  stops_at_local_errors W (bind m k).
Proof.
  intros Hm Hk st out st' Hrun. unfold bind in Hrun.
  destruct (m st) as [o1 st1] eqn:Hm1.
  destruct (Hm _ _ _ Hm1) as (new1 & Ht1 & Hf1).
  destruct o1 as [ a | e1 | ].
  - destruct (Hk a _ _ _ Hrun) as (new2 & Ht2 & Hf2).
    exists (new1 ++ new2). split; [ by rewrite Ht2, Ht1, app_assoc | ].
    intros t c rest e Heq Herr.
    apply app_eq_inv in Heq as [ (k' & Hn1 & Hrest) | (k' & -> & Hn2) ].
    + destruct k' as [ | c' k' ].
      * rewrite app_nil_r in Hn1. subst new1. by apply (Hf2 [] c rest e).
      * simpl in Hrest. injection Hrest as <- ->.
        destruct (Hf1 t c k' e Hn1 Herr) as [_ Hout]. discriminate.
    + by apply (Hf2 k' c rest e Hn2).
  - injection Hrun as <- <-. exists new1. split; [ done | ].
    intros t c rest e Heq Herr.
    destruct (Hf1 t c rest e Heq Herr) as [Hrest Hout].
    split; [ done | ]. by injection Hout as ->.
  - injection Hrun as <- <-. exists new1. split; [ done | ].
    intros t c rest e Heq Herr.
    destruct (Hf1 t c rest e Heq Herr) as [_ Hout]. discriminate.
Qed.

Lemma stops_for_each {A} (l : list A) body :
  (∀ x, stops_at_local_errors W (body x)) →
  stops_at_local_errors W (for_each l body).
Proof.
  intros Hbody. induction l as [ | x l IH ].
  - intros st out st' [= <- <-]. exists []. split; [ by rewrite app_nil_r | ].
    intros t c rest e Heq. by destruct t.
  - apply stops_bind; [ apply Hbody | intros _; exact IH ].
Qed.

(** Events that no local error follows. *)
Lemma stops_quiet {A} (m : M A) :
  (∀ st, ∃ new, trace (m st).2 = trace st ++ new ∧
                Forall (fun c => local_error W c = None) new) →
  stops_at_local_errors W m.
Proof.
  intros Hm st out st' Hrun. destruct (Hm st) as (new & Ht & Hq).
  rewrite Hrun in Ht. exists new. split; [ exact Ht | ].
  intros t c rest e -> Herr.
  apply Forall_app in Hq as [_ Hq]. apply Forall_cons in Hq as [Hc _].
  congruence.
Qed.

Lemma stops_make_directory self path :
  stops_at_local_errors W (make_directory W self path).
Proof.
  apply stops_quiet. intros st. unfold make_directory, bind, deref, remote_call.
  destruct (heap st !! self).
  - eexists [_]. split; [ by destruct (w_fault W _ _) | by repeat constructor ].
  - exists []. by rewrite app_nil_r.
Qed.

Lemma stops_os_listdir path : stops_at_local_errors W (os_listdir W path).
Proof.
  intros st out st' Hrun. unfold os_listdir, bind, emit in Hrun.
  exists [Listdir path]. split.
  { destruct (w_listdir W path); by injection Hrun as <- <-. }
  intros t c rest e Heq Herr.
  destruct t as [ | x [ | y t ] ]; try discriminate.
  injection Heq as <- <-. simpl in Herr.
  destruct (w_listdir W path); [ | discriminate ].
  injection Herr as ->. by injection Hrun as <- <-.
Qed.

(** The test [os.path.isfile] and what follows it. *)
Lemma stops_isfile_then_upload agave local_file_path remote_path file :
  stops_at_local_errors W
    (is_file <- os_path_isfile W local_file_path ;;
     if is_file then upload_file W agave local_file_path remote_path file
     else ret tt)%py.
Proof.
  intros st out st' Hrun.
  unfold bind at 1, os_path_isfile, bind, emit, ret in Hrun.
  destruct (w_isfile W local_file_path) eqn:Hf.
  - unfold upload_file, with_open, open, try_finally, upload_fileobj, bind,
      deref, remote_call, close in Hrun.
    destruct (w_open W local_file_path) as [ err | ] eqn:Ho.
    + injection Hrun as <- <-. exists [Isfile local_file_path].
      split; [ reflexivity | ]. intros t c rest e Heq Herr.
      destruct t as [ | x [ | y t ] ]; try discriminate.
      injection Heq as <- <-. simpl in Herr. rewrite Hf, Ho in Herr.
      by injection Herr as ->.
    + simpl in Hrun.
      assert (Hq : ∃ new, trace st' = trace st ++ new ∧
                Forall (fun c => local_error W c = None) new).
      { destruct (heap st !! agave).
        - eexists [Isfile _; Open _; ImportData _ _ _ _; Close _].
          split; [ destruct (w_fault W _ _); injection Hrun as <- <-; simpl;
                   by rewrite <- !app_assoc | ].
          repeat constructor. simpl. by rewrite Hf.
        - eexists [Isfile _; Open _; Close _].
          split; [ injection Hrun as <- <-; simpl; by rewrite <- !app_assoc | ].
          repeat constructor. simpl. by rewrite Hf. }
      destruct Hq as (new & Ht & Hq). exists new. split; [ exact Ht | ].
      intros t c rest e -> Herr.
      apply Forall_app in Hq as [_ Hq]. apply Forall_cons in Hq as [Hc _].
      congruence.
  - injection Hrun as <- <-. exists [Isfile local_file_path].
    split; [ reflexivity | ]. intros t c rest e Heq Herr.
    destruct t as [ | x [ | y t ] ]; try discriminate.
    injection Heq as <- <-. simpl in Herr. by rewrite Hf in Herr.
Qed.

Lemma stops_copy_from fuel : ∀ local_path agave remote_path,
  stops_at_local_errors W (copy_from W fuel local_path agave remote_path).
Proof.
  induction fuel as [ | fuel IH ]; intros local_path agave remote_path.
  { apply stops_quiet. intros st. exists []. by rewrite app_nil_r. }
  cbn [copy_from].
  apply stops_bind; [ apply stops_make_directory | intros _ ].
  apply stops_bind; [ apply stops_os_listdir | intros files ].
  apply stops_for_each. intros file.
  apply stops_bind.
  { apply stops_quiet. intros st. eexists [Isdir _].
    split; [ reflexivity | by repeat constructor ]. }
  intros [ | ]; [ apply IH | apply stops_isfile_then_upload ].
Qed.

End LocalErrors.

(** X9. When [os.listdir] raises on a directory of the traversal, or a
    path that [os.path.isfile] accepted does not open, the run of
    [copy_from] ends there: the failed access follows the last event of
    the run and its error is the outcome, so no sibling is visited and no
    call is made any more. *)
Theorem copy_from_stops_at_a_local_error
  W fuel local_path agave remote_path st out st' t c rest e :
  copy_from W fuel local_path agave remote_path st = (out, st') →
  trace st' = trace st ++ t ++ c :: rest →
  local_error W c = Some e →
  rest = [] ∧ out = Raised e.
Proof.
  intros Hrun Htrace Herr.
  destruct (stops_copy_from W fuel local_path agave remote_path _ _ _ Hrun)
    as (new & Hnew & Hstop).
  rewrite Hnew in Htrace. apply (inj (app (trace st))) in Htrace.
  by apply (Hstop t c rest e).
Qed.

Lemma copy_from_stops_at_a_local_error_witness :
  let W := unreadable "proj/a.txt" (fs_world (cwd_with proj) ∅) in
  [] = @nil event ∧
  (copy_from W 2 "proj" 0 "proj" ready).1
    = Raised (OSError "PermissionError" "proj/a.txt").
Proof.
  intros W.
  apply (copy_from_stops_at_a_local_error W 2 "proj" 0 "proj" ready
           (copy_from W 2 "proj" 0 "proj" ready).1
           (copy_from W 2 "proj" 0 "proj" ready).2
           [mkdir_call biofab "proj"; Listdir "proj"; Isdir "proj/a.txt"]
           (Isfile "proj/a.txt") []
           (OSError "PermissionError" "proj/a.txt")).
  - apply surjective_pairing.
  - reflexivity.
  - reflexivity.
Defined.

(** ** Calls inside the root path *)

Lemma join_stays_relative remote name :
  posixpath.startswith_sep remote = false → valid_name name = true →
  posixpath.startswith_sep (posixpath.join remote name) = false.
Proof.
  intros Hrel Hv. rewrite join_valid by done.
  destruct remote as [ | c remote ]; [ by apply valid_name_relative | ].
  rewrite startswith_sep_app; [ | unfold with_sep; by destruct (_ || _) ].
  unfold with_sep. destruct (_ || _); [ done | by rewrite startswith_sep_app ].
Qed.

Lemma inside_join this remote name ev :
  valid_name name = true →
  inside this (posixpath.join remote name) ev → inside this remote ev.
Proof.
  intros Hv. destruct ev; simpl; try done.
  - intros (Hfp & Hu & Hrel). split; [ done | ]. split; [ | done ].
    by apply (under_join remote name).
  - intros (dest & Hu & Hrel & Hfp). exists dest.
    split; [ by apply (under_join remote name) | done ].
Qed.

Lemma emits_weaken agave this (P Q : event → Prop) {A} (m : M A) :
  (∀ ev, P ev → Q ev) → emits agave this P m → emits agave this Q m.
Proof.
  intros Himp Hm st Hself. destruct (Hm st Hself) as (new & Ht & Hp).
  exists new. split; [ exact Ht | ]. by eapply Forall_impl.
Qed.

Lemma emits_for_each_Forall agave this P {A} (l : list A) body :
  (∀ x, steady (body x)) →
  Forall (fun x => emits agave this P (body x)) l →
  emits agave this P (for_each l body).
Proof.
  intros Hs. induction 1 as [ | x l Hx _ IH ].
  - intros st _. exists []. by rewrite app_nil_r.
  - apply emits_bind; [ apply Hs | exact Hx | intros _; exact IH ].
Qed.

Lemma emits_copy_from_inside W agave this fuel :
  lists_valid_names W →
  ∀ local_path remote_path,
    posixpath.startswith_sep remote_path = false →
    emits agave this (inside this remote_path)
          (copy_from W fuel local_path agave remote_path).
Proof.
  intros Hnames.
  induction fuel as [ | fuel IH ]; intros local_path remote_path Hrel.
  { by apply emits_none. }
  rewrite copy_from_unfold.
  apply emits_bind; [ apply steady_make_directory | | intros _ ].
  { intros st Hself. exists [mkdir_call this remote_path].
    rewrite (make_directory_step W agave this) by done.
    split; [ reflexivity | ]. constructor; [ | constructor ].
    simpl. split; [ done | ]. split; [ by left | done ]. }
  intros st Hself. unfold bind at 1, os_listdir, bind, emit.
  destruct (w_listdir W local_path) as [ e | files ] eqn:Hlist.
  { exists [Listdir local_path]. split; [ reflexivity | by repeat constructor ]. }
  unfold ret.
  assert (Hloop : emits agave this (inside this remote_path)
            (for_each files (iteration W agave fuel local_path remote_path))).
  { apply emits_for_each_Forall.
    { intros file. apply steady_iteration. }
    apply Hnames in Hlist.
    eapply Forall_impl; [ exact Hlist | ]. intros file Hv. cbn beta.
    apply emits_bind; [ done | | ].
    { by apply (emits_one _ _ _ _ (Isdir (posixpath.join local_path file))). }
    intros [ | ].
    { eapply emits_weaken; [ | apply IH; by apply join_stays_relative ].
      intros ev. by apply inside_join. }
    apply emits_bind; [ done | | ].
    { by apply (emits_one _ _ _ _ (Isfile (posixpath.join local_path file))). }
    intros [ | ]; [ | by apply emits_none ].
    intros st1 Hself1.
    unfold upload_file, with_open, open, try_finally, upload_fileobj, bind,
      deref, remote_call, close.
    destruct (w_open W _).
    { exists []. by rewrite app_nil_r. }
    simpl. rewrite Hself1.
    eexists [Open _; ImportData _ _ _ _; Close _].
    split; [ destruct (w_fault W _ _); simpl; by rewrite <- !app_assoc | ].
    constructor; [ done | ]. constructor; [ | by repeat constructor ].
    exists remote_path. split; [ by left | ]. split; [ done | ].
    by apply join_relative. }
  destruct (Hloop (log (Listdir local_path) st) Hself) as (new & Ht & Hp).
  exists (Listdir local_path :: new). split.
  - rewrite Ht. simpl. by rewrite <- app_assoc.
  - constructor; [ done | exact Hp ].
Qed.

(** X10. When [os.listdir] returns valid names and the remote path is
    relative, every remote call of a run of [copy_from], however it ends,
    stays inside the root path of the adapter: a directory is created
    with the root path as base and a relative path at or under the remote
    path, and a file is uploaded to the root path, a separator and such a
    relative path. *)
Theorem copy_from_stays_inside_the_root_path
  W fuel local_path agave this remote_path st :
  lists_valid_names W →
  posixpath.startswith_sep remote_path = false →
  heap st !! agave = Some this →
  ∃ new,
    trace (copy_from W fuel local_path agave remote_path st).2
      = trace st ++ new ∧
    Forall (inside this remote_path) new.
Proof. intros Hnames Hrel Hself. by apply emits_copy_from_inside. Qed.

Lemma cwd_with_proj_well_formed : well_formed (cwd_with proj).
Proof.
  split; [ distinct_names | ].
  split; [ reflexivity | ]. split; [ apply proj_well_formed | exact I ].
Qed.

Lemma copy_from_stays_inside_the_root_path_witness :
  let W := refusing upload_of_a_txt (fs_world (cwd_with proj) ∅) in
  ∃ new,
    trace (copy_from W 2 "proj" 0 "proj" ready).2 = trace ready ++ new ∧
    Forall (inside biofab "proj") new.
Proof.
  intros W.
  apply (copy_from_stays_inside_the_root_path W 2 "proj" 0 biofab "proj" ready).
  - exact (fs_world_lists_valid_names (cwd_with proj) ∅ cwd_with_proj_well_formed).
  - reflexivity.
  - reflexivity.
Defined.

Lemma inside_main_adapter user pass server client key secret remote ev :
  inside (main_adapter user pass server client key secret) remote ev →
  inside_biofab ev.
Proof.
  destruct ev; simpl; try done.
  - by intros (Hfp & _ & Hrel).
  - intros (dest & _ & Hrel & Hfp). by exists dest.
Qed.

(** X11. With a complete environment and an [os.listdir] that returns
    valid names, everything [main] sends stays inside [/sample/biofab],
    whatever directory it is given and however the run ends: directories
    are created with base [/sample/biofab] and a relative path, and files
    are uploaded to [/sample/biofab/] followed by a relative path.  (This
    is about the paths as strings: for a directory argument that
    normalises to [..] the relative path is [..] itself.) *)
Theorem main_stays_inside_biofab
  W fuel directory st server client key secret :
  configured W server client key secret →
  lists_valid_names W →
  ∃ new,
    trace (main W fuel directory st).2 = trace st ++ new ∧
    Forall inside_biofab new.
Proof.
  intros Henv Hnames.
  destruct (w_user W) as [ e | user ] eqn:Huser.
  { rewrite (main_without_login W fuel directory st e Huser).
    exists []. split; [ by rewrite app_nil_r | constructor ]. }
  destruct (w_password W) as [ e | pass ] eqn:Hpass.
  { rewrite (main_without_password W fuel directory st user e Huser Hpass).
    exists [Getpass]. split; [ reflexivity | by repeat constructor ]. }
  rewrite (main_step W fuel directory st user pass _ _ _ _
             (conj Huser Hpass) Henv).
  cbn zeta.
  destruct (w_fault W _ _).
  { eexists. split; [ reflexivity | by repeat constructor ]. }
  set (st1 := {| trace := _; open_files := _; heap := _ |}).
  destruct (emits_copy_from_inside W (List.length (heap st))
              (main_adapter user pass server client key secret) fuel Hnames
              (posixpath.normpath directory)
              (posixpath.basename (posixpath.normpath directory))
              (no_sep_relative _ (basename_no_sep _)) st1
              (lookup_fresh_ref _ _)) as (new & Ht & Hp).
  exists (Getpass ::
          Connect (main_session user pass server client key secret) :: new).
  split.
  - rewrite Ht. unfold st1. cbn [trace]. by rewrite <- app_assoc.
  - constructor; [ done | ]. constructor; [ done | ].
    eapply Forall_impl; [ exact Hp | ]. intros ev.
    apply inside_main_adapter.
Qed.

Lemma main_stays_inside_biofab_witness :
  let W := refusing upload_of_a_txt (fs_world (cwd_with proj) full_environ) in
  ∃ new,
    trace (main W 2 "./proj/" initial_state).2 = trace initial_state ++ new ∧
    Forall inside_biofab new.
Proof.
  intros W.
  apply (main_stays_inside_biofab W 2 "./proj/" initial_state
           "api.sd2e.org" "client" "key" "secret").
  - repeat split.
  - exact (fs_world_lists_valid_names (cwd_with proj) full_environ
             cwd_with_proj_well_formed).
Defined.

(** ** One file at a time *)

Lemma tidy_app l1 l2 : tidy l1 → tidy l2 → tidy (l1 ++ l2).
Proof.
  intros H1 H2. induction H1 as [ | ev l Hev _ IH | f s fp name l _ IH ].
  - exact H2.
  - by apply tidy_other.
  - by apply tidy_upload.
Qed.

(** An upload in a tidy trace comes right after the opening of its file
    and right before its closing. *)
Lemma tidy_upload_inv l : tidy l →
  ∀ t systemId filePath f fileName rest,
    l = t ++ ImportData systemId filePath f fileName :: rest →
    (∃ t', t = t' ++ [Open f]) ∧ (∃ rest', rest = Close f :: rest').
Proof.
  induction 1 as [ | ev l Hev _ IH | f0 s0 fp0 name0 l _ IH ];
    intros t s fp f name rest Heq.
  - by destruct t.
  - destruct t as [ | x t ]; simpl in Heq.
    + injection Heq as -> _. discriminate.
    + injection Heq as <- Heq.
      destruct (IH _ _ _ _ _ _ Heq) as [[t' ->] Hrest].
      split; [ by exists (ev :: t') | exact Hrest ].
  - destruct t as [ | x [ | y [ | z t ] ] ]; simpl in Heq.
    + discriminate.
    + injection Heq as <- <- <- <- <- <-.
      split; [ by exists [] | by exists l ].
    + discriminate.
    + injection Heq as <- <- <- Heq.
      destruct (IH _ _ _ _ _ _ Heq) as [[t' ->] Hrest].
      split; [ | exact Hrest ].
      by exists (Open f0 :: ImportData s0 fp0 f0 name0 :: Close f0 :: t').
Qed.

Section Tidy.

Context (agave : ref) (this : AgaveWrapper).

Lemma tidily_bind {A B} (m : M A) (k : A → M B) :
  steady m → tidily agave this m → (∀ a, tidily agave this (k a)) →
  tidily agave this (bind m k).
Proof.
  intros Hs Hm Hk st Hself. unfold bind.
  destruct (Hm st Hself) as (new1 & Ht1 & Hp1).
  destruct (Hs st) as [_ Hh].
  destruct (m st) as [[ a | e | ] st1]; simpl in *; try by exists new1.
  destruct (Hk a st1) as (new2 & Ht2 & Hp2); [ by rewrite Hh | ].
  exists (new1 ++ new2). split; [ by rewrite Ht2, Ht1, app_assoc | ].
  by apply tidy_app.
Qed.

Lemma tidily_for_each {A} (l : list A) body :
  (∀ x, steady (body x)) → (∀ x, tidily agave this (body x)) →
  tidily agave this (for_each l body).
Proof.
  intros Hs Hbody. induction l as [ | x l IH ].
  - intros st _. exists []. split; [ by rewrite app_nil_r | constructor ].
  - apply tidily_bind; [ apply Hs | apply Hbody | intros _; exact IH ].
Qed.

Lemma tidily_one {A} (m : M A) ev :
  is_file_event ev = false →
  (∀ st, trace (m st).2 = trace st ++ [ev]) → tidily agave this m.
Proof.
  intros Hev Hm st _. exists [ev].
  split; [ apply Hm | by apply tidy_other; [ | constructor ] ].
Qed.

Lemma tidily_none {A} (m : M A) : (∀ st, (m st).2 = st) → tidily agave this m.
Proof.
  intros Hm st _. exists []. rewrite Hm.
  split; [ by rewrite app_nil_r | constructor ].
Qed.

Lemma tidily_copy_from W fuel : ∀ local_path remote_path,
  tidily agave this (copy_from W fuel local_path agave remote_path).
Proof.
  induction fuel as [ | fuel IH ]; intros local_path remote_path.
  { by apply tidily_none. }
  cbn [copy_from].
  apply tidily_bind; [ apply steady_make_directory | | intros _ ].
  { intros st Hself. exists [mkdir_call this remote_path].
    rewrite (make_directory_step W agave this) by done.
    split; [ reflexivity | by apply tidy_other; [ | constructor ] ]. }
  apply tidily_bind; [ apply steady_os_listdir | | intros files ].
  { intros st _. exists [Listdir local_path].
    unfold os_listdir, bind, emit.
    split; [ by destruct (w_listdir W local_path)
           | by apply tidy_other; [ | constructor ] ]. }
  apply tidily_for_each.
  { intros file. exact (steady_iteration W agave fuel local_path remote_path file). }
  intros file.
  apply tidily_bind;
    [ done | by apply (tidily_one _ (Isdir (posixpath.join local_path file))) | ].
  intros [ | ]; [ apply IH | ].
  apply tidily_bind;
    [ done | by apply (tidily_one _ (Isfile (posixpath.join local_path file))) | ].
  intros [ | ]; [ | by apply tidily_none ].
  intros st Hself.
  unfold upload_file, with_open, open, try_finally, upload_fileobj, bind,
    deref, remote_call, close.
  destruct (w_open W _).
  { exists []. split; [ by rewrite app_nil_r | constructor ]. }
  simpl. rewrite Hself.
  eexists [Open _; ImportData _ _ _ _; Close _].
  split; [ destruct (w_fault W _ _); simpl; by rewrite <- !app_assoc | ].
  apply tidy_upload. constructor.
Qed.

End Tidy.

(** X12. Whatever the file system and the service do, a run of
    [copy_from] handles one file at a time: a file is opened only to be
    uploaded at once and closed at once, also when the upload is refused.
    So every upload in the run comes right after the opening of the file
    it sends and right before its closing. *)
Theorem copy_from_handles_one_file_at_a_time
  W fuel local_path agave this remote_path st :
  heap st !! agave = Some this →
  ∃ new,
    trace (copy_from W fuel local_path agave remote_path st).2
      = trace st ++ new ∧
    tidy new ∧
    ∀ t systemId filePath f fileName rest,
      new = t ++ ImportData systemId filePath f fileName :: rest →
      (∃ t', t = t' ++ [Open f]) ∧ (∃ rest', rest = Close f :: rest').
Proof.
  intros Hself.
  destruct (tidily_copy_from agave this W fuel local_path remote_path st Hself)
    as (new & Ht & Htidy).
  exists new. split; [ exact Ht | ]. split; [ exact Htidy | ].
  by apply tidy_upload_inv.
Qed.

Lemma copy_from_handles_one_file_at_a_time_witness :
  let W := refusing upload_of_a_txt (fs_world (cwd_with proj) ∅) in
  ∃ new,
    trace (copy_from W 2 "proj" 0 "proj" ready).2 = trace ready ++ new ∧
    tidy new ∧
    ∀ t systemId filePath f fileName rest,
      new = t ++ ImportData systemId filePath f fileName :: rest →
      (∃ t', t = t' ++ [Open f]) ∧ (∃ rest', rest = Close f :: rest').
Proof.
  intros W.
  apply (copy_from_handles_one_file_at_a_time W 2 "proj" 0 biofab "proj" ready).
  reflexivity.
Defined.

(** ** An empty directory *)

(** X13. For a local directory without entries [copy_from] creates the
    remote directory and does nothing else: the events of the run are the
    create-directory call and the listing, no file is opened and nothing
    is uploaded, at any remote path. *)
Theorem copy_from_of_an_empty_directory
  W fuel local_path agave this remote_path st :
  heap st !! agave = Some this →
  w_listdir W local_path = inr [] →
  w_fault W (trace st) (mkdir_call this remote_path) = None →
  copy_from W (S fuel) local_path agave remote_path st =
  (Returned tt, extend st [mkdir_call this remote_path; Listdir local_path]).
Proof.
  intros Hself Hlist Hok.
  rewrite (copy_from_first_step W fuel local_path agave this) by done.
  rewrite Hok. unfold bind, os_listdir, bind, emit. rewrite Hlist.
  unfold ret. simpl. by rewrite log_extend, extend_app.
Qed.

Lemma copy_from_of_an_empty_directory_witness :
  let W := fs_world (cwd_with (Directory [])) ∅ in
  copy_from W 1 "proj" 0 "" ready =
  (Returned tt, extend ready [mkdir_call biofab ""; Listdir "proj"]).
Proof.
  intros W.
  apply (copy_from_of_an_empty_directory W 0 "proj" 0 biofab "" ready);
    reflexivity.
Defined.

(** ** The command-line argument *)

(** [(s + '/').split('/') == s.split('/') + ['']] *)
Lemma split_trailing_sep s :
  posixpath.split (s +:+ "/") = posixpath.split s ++ [""].
Proof. exact (split_app_sep s ""). Qed.

(** The loop of [normpath] drops an empty last component. *)
Lemma normpath_comps_trailing_empty i comps : ∀ new_comps,
  posixpath.normpath_comps i (comps ++ [""]) new_comps
  = posixpath.normpath_comps i comps new_comps.
Proof.
  induction comps as [ | comp comps IH ]; intros new_comps; [ reflexivity | ].
  cbn [app posixpath.normpath_comps]. by rewrite !IH.
Qed.

Lemma normpath_trailing_sep directory :
  directory ≠ "" → directory ≠ "/" → directory ≠ "//" →
  posixpath.normpath (directory +:+ "/") = posixpath.normpath directory.
Proof.
  intros H0 H1 H2. unfold posixpath.normpath.
  rewrite split_trailing_sep, !normpath_comps_trailing_empty.
  destruct directory as [ | a [ | b [ | c s ] ] ]; try done.
  - destruct (bool_decide (a = "/"%char)) eqn:Ha.
    + apply bool_decide_eq_true in Ha. by subst a.
    + change (String a "" +:+ "/") with (String a "/").
      cbn [posixpath.is_empty].
      destruct a as [[ | ] [ | ] [ | ] [ | ] [ | ] [ | ] [ | ] [ | ]];
        try reflexivity.
      by apply bool_decide_eq_false in Ha.
  - change (String a (String b "") +:+ "/") with (String a (String b "/")).
    cbn [posixpath.is_empty].
    destruct (bool_decide (a = "/"%char)) eqn:Ha.
    + apply bool_decide_eq_true in Ha. subst a.
      destruct (bool_decide (b = "/"%char)) eqn:Hb.
      * apply bool_decide_eq_true in Hb. by subst b.
      * destruct b as [[ | ] [ | ] [ | ] [ | ] [ | ] [ | ] [ | ] [ | ]];
          try reflexivity.
        by apply bool_decide_eq_false in Hb.
    + destruct a as [[ | ] [ | ] [ | ] [ | ] [ | ] [ | ] [ | ] [ | ]];
        try reflexivity.
      by apply bool_decide_eq_false in Ha.
Qed.

(** X14. A trailing slash on the command-line argument changes nothing:
    for every directory argument other than the empty string, [/] and
    [//], [main] run on the argument followed by a slash is [main] run on
    the argument, in every world and from every state. *)
Theorem main_ignores_a_trailing_slash W fuel directory st :
  directory ≠ "" → directory ≠ "/" → directory ≠ "//" →
  main W fuel (directory +:+ "/") st = main W fuel directory st.
Proof.
  intros H0 H1 H2. unfold main.
  by rewrite normpath_trailing_sep.
Qed.

Lemma main_ignores_a_trailing_slash_witness :
  let W := fs_world (cwd_with proj) full_environ in
  main W 2 "proj/" ready = main W 2 "proj" ready.
Proof.
  intros W.
  apply (main_ignores_a_trailing_slash W 2 "proj" ready); discriminate.
Defined.

(** ** The name of the remote directory *)

Lemma last_nonempty_Forall {A} (P : A → Prop) l d :
  l ≠ [] → Forall P l → P (List.last l d).
Proof.
  intros Hne Hl. induction Hl as [ | x l Hx Hl IH ]; [ done | ].
  destruct l as [ | y l ]; [ exact Hx | ]. by apply IH.
Qed.

(** What the loop of [normpath] keeps are components. *)
Lemma normpath_comps_components i comps : ∀ new_comps,
  Forall (fun c => has_sep c = false) comps →
  Forall component new_comps →
  Forall component (posixpath.normpath_comps i comps new_comps).
Proof.
  induction comps as [ | comp comps IH ]; intros new_comps Hc Hn.
  { by apply List.Forall_rev. }
  apply Forall_cons in Hc as [Hcomp Hc]. cbn [posixpath.normpath_comps].
  destruct (bool_decide (comp = "")) eqn:Hempty; [ by apply IH | ].
  apply bool_decide_eq_false in Hempty.
  destruct (bool_decide (comp = ".")) eqn:Hdot; [ by apply IH | ].
  apply bool_decide_eq_false in Hdot. cbn [orb].
  match goal with |- context [ if ?b then _ else _ ] => destruct b end.
  - apply IH; [ done | ]. by constructor.
  - apply IH; [ done | ]. destruct Hn; [ constructor | done ].
Qed.

(** [s.split('/')] undoes ['/'.join(comps)] on components. *)
Lemma split_sep_join comps :
  comps ≠ [] → Forall component comps →
  posixpath.split (posixpath.sep_join comps) = comps.
Proof.
  intros Hne Hc. induction Hc as [ | c comps (_ & _ & Hc) Hcs IH ]; [ done | ].
  destruct comps as [ | c' comps ]; [ by apply split_name | ].
  rewrite sep_join_cons.
  change (c +:+ "/" +:+ posixpath.sep_join (c' :: comps))
    with (c +:+ String "/" (posixpath.sep_join (c' :: comps))).
  rewrite split_app_sep, split_name, IH; done.
Qed.

(** A normalised path is [.], or the root, or it ends with a component,
    which is then its base name. *)
Lemma basename_normpath directory :
  posixpath.normpath directory = "." ∨
  (posixpath.normpath directory = "/" ∨ posixpath.normpath directory = "//") ∨
  component (posixpath.basename (posixpath.normpath directory)).
Proof.
  assert (Hshape : ∃ i comps, Forall component comps ∧
            posixpath.normpath directory =
            if posixpath.is_empty directory then "."
            else
              let path' := posixpath.sep_join comps in
              let path' := match i with
                           | 0 => path'
                           | 1 => "/" +:+ path'
                           | _ => "//" +:+ path'
                           end in
              if posixpath.is_empty path' then "." else path').
  { unfold posixpath.normpath. eexists _, _. split; [ | reflexivity ].
    apply normpath_comps_components; [ apply split_no_sep | constructor ]. }
  destruct Hshape as (i & comps & Hc & ->).
  destruct (posixpath.is_empty directory); [ by left | ]. cbn zeta.
  destruct comps as [ | c comps ].
  { destruct i as [ | [ | i ] ];
      [ by left | right; left; by left | right; left; by right ]. }
  assert (Hlast : component (List.last (c :: comps) "")).
  { by apply (last_nonempty_Forall component). }
  pose proof (split_sep_join (c :: comps) ltac:(done) Hc) as Hsplit.
  destruct i as [ | [ | i ] ].
  - destruct (posixpath.is_empty _); [ by left | ].
    right; right. unfold posixpath.basename. by rewrite Hsplit.
  - right; right. unfold posixpath.basename.
    change ("/" +:+ posixpath.sep_join (c :: comps))
      with (String "/" (posixpath.sep_join (c :: comps))).
    cbn [posixpath.is_empty posixpath.split].
    rewrite bool_decide_eq_true_2 by done. by rewrite Hsplit.
  - right; right. unfold posixpath.basename.
    change ("//" +:+ posixpath.sep_join (c :: comps))
      with (String "/" (String "/" (posixpath.sep_join (c :: comps)))).
    cbn [posixpath.is_empty posixpath.split].
    rewrite bool_decide_eq_true_2 by done. by rewrite Hsplit.
Qed.

(** The first event of a run of [copy_from] is its create-directory
    call. *)
Lemma copy_from_first_event W fuel local agave this remote st :
  heap st !! agave = Some this →
  ∃ rest, trace (copy_from W (S fuel) local agave remote st).2 =
          trace st ++ mkdir_call this remote :: rest.
Proof.
  intros Hself. rewrite (copy_from_first_step W fuel local agave this) by done.
  destruct (w_fault W (trace st) (mkdir_call this remote)); [ by exists [] | ].
  set (k := fun files => for_each files (iteration W agave fuel local remote)).
  destruct (fail_fast_bind W (os_listdir W local) k
              (fail_fast_os_listdir W local)
              (fun files => fail_fast_for_each W files _
                 (fail_fast_iteration W agave fuel local remote))
              (extend st [mkdir_call this remote]) _ _
              (surjective_pairing _)) as (new & Hnew & _).
  exists new. rewrite Hnew. simpl. by rewrite <- app_assoc.
Qed.

(** X15. Once the session is open, the first remote call of [main] creates
    the directory named by the base name of the normalised argument, with
    base [/sample/biofab].  That name never holds a separator.  It is
    empty exactly when the argument normalises to the root ([/] or [//]),
    and it is [.] exactly when the argument normalises to [.] (as the
    arguments [.], [./] and the empty one do): in these two cases the copy
    goes into [/sample/biofab] itself.  In every other case the name is
    the last component of the normalised argument (which can be [..]). *)
Theorem main_names_the_remote_directory
  W fuel directory st user pass server client key secret :
  logged_in W user pass →
  configured W server client key secret →
  w_fault W (trace st ++ [Getpass])
    (Connect (main_session user pass server client key secret)) = None →
  let local_path := posixpath.normpath directory in
  let remote := posixpath.basename local_path in
  (∃ rest,
     trace (main W (S fuel) directory st).2
       = trace st ++ Getpass
           :: Connect (main_session user pass server client key secret)
           :: Manage "data-sd2e-community" "/sample/biofab" "mkdir" remote
           :: rest) ∧
  has_sep remote = false ∧
  (remote = "" ↔ local_path = "/" ∨ local_path = "//") ∧
  (remote = "." ↔ local_path = ".").
Proof.
  intros Hlogin Henv Hok local_path remote.
  split; [ | split; [ apply basename_no_sep | ] ].
  - rewrite (main_step W (S fuel) directory st user pass
               server client key secret Hlogin Henv).
    cbn zeta. rewrite Hok.
    set (st1 := {| trace := _; open_files := _; heap := _ |}).
    destruct (copy_from_first_event W fuel local_path
                (List.length (heap st))
                (main_adapter user pass server client key secret)
                remote st1)
      as (rest & Hrest); [ apply lookup_fresh_ref | ].
    exists rest. unfold remote, local_path in *. rewrite Hrest.
    unfold st1. simpl. by rewrite <- app_assoc.
  - unfold remote, local_path.
    destruct (basename_normpath directory)
      as [ Hdot | [ Hroot | (Hne & Hnd & _) ] ].
    + rewrite Hdot. split; split; try done. by intros [ ? | ? ].
    + split; [ split; [ done | ] | ].
      * intros _. by destruct Hroot as [ -> | -> ].
      * destruct Hroot as [ -> | -> ]; split; done.
    + split; split; try done.
      * intros [ Hr | Hr ]; rewrite Hr in Hne; by destruct Hne.
      * intros Hr. rewrite Hr in Hnd. by destruct Hnd.
Qed.

Lemma main_names_the_remote_directory_witness :
  let W := fs_world (cwd_with proj) full_environ in
  let local_path := posixpath.normpath "./proj/" in
  let remote := posixpath.basename local_path in
  (∃ rest,
     trace (main W 2 "./proj/" ready).2
       = trace ready ++ Getpass
           :: Connect (main_session "operator" "secret"
                         "api.sd2e.org" "client" "key" "secret")
           :: Manage "data-sd2e-community" "/sample/biofab" "mkdir" remote
           :: rest) ∧
  has_sep remote = false ∧
  (remote = "" ↔ local_path = "/" ∨ local_path = "//") ∧
  (remote = "." ↔ local_path = ".").
Proof.
  intros W.
  apply (main_names_the_remote_directory W 1 "./proj/" ready
           "operator" "secret" "api.sd2e.org" "client" "key" "secret");
    [ by split | by repeat split | reflexivity ].
Defined.

(** The current directory is copied into [/sample/biofab] itself. *)
Example main_on_the_current_directory :
  List.filter is_mkdir
    (trace (main (fs_world (Directory [("a.txt", RegularFile)]) full_environ)
                 1 "." initial_state).2)
  = [ Manage "data-sd2e-community" "/sample/biofab" "mkdir" "." ].
Proof. reflexivity. Qed.
